(** * ranger/gui/ansi.py and ranger/gui/color.py: a shallow embedding

    The development follows the two source files:
    - [Re]          the two regular expressions of [ansi.py] and the scanner
                    that runs [ansi_re];
    - [Curses]      what the code reads from the [curses] library;
    - [Color]       [ranger/gui/color.py]: attribute constants, [get_color_id];
    - [WideString]  the part of [ranger.ext.widestring] that [ansi.py] uses;
    - [Ansi]        [ranger/gui/ansi.py] itself.

    Conventions.  A Python string is a list of code points ([N]).  Python
    integers are [Z].  [ansi_text], [start] and [length] are the arguments
    the source functions take; nothing is assumed about them unless a
    theorem says so.  The module indexes the result of [map]
    ([code[0]], [code[1:]]), so it is read with the semantics of Python 2,
    where [map] returns a list and [\d] in a pattern is an ASCII digit. *)

From Stdlib Require Import String Ascii Bool Arith NArith ZArith Lia List.
Import ListNotations.

Set Implicit Arguments.

Local Open Scope Z_scope.
Local Open Scope list_scope.

(** ** Strings *)

Definition char := N.
Definition str := list char.

Definition of_string (s : string) : str :=
  map N_of_ascii (list_ascii_of_string s).

Definition ESC : char := 27%N.          (* '\x1b' *)
Definition LBRACKET : char := 91%N.     (* '[' *)
Definition SEMICOLON : char := 59%N.    (* ';' *)
Definition SPACE : char := 32%N.        (* ' ' *)
Definition NEWLINE : char := 10%N.      (* '\n' *)
Definition LOWER_M : char := 109%N.     (* 'm' *)

(** [esc "[0m"] is the Python literal ['\x1b[0m']. *)
Definition esc (s : string) : str := ESC :: of_string s.

(** ** Regular expressions *)

Module Re.

(** [\d] and [[a-zA-Z]] of the patterns.  [\d] is the ASCII digits, which is
    what it means for the byte strings of Python 2 that the module is written
    for (see [Ansi.text_with_fg_bg_attr]). *)
Definition is_digit (c : char) : bool := ((48 <=? c) && (c <=? 57))%N.
Definition is_letter (c : char) : bool :=
  (((65 <=? c) && (c <=? 90)) || ((97 <=? c) && (c <=? 122)))%N.

(** The fragment of the [re] syntax that [ansi_re] is written in.  A greedy
    and a lazy star denote the same set of words, so one constructor serves
    both [*] and [*?]. *)
Inductive regex : Type :=
| Chr (c : char)
| Class (p : char -> bool)
| Cat (r1 r2 : regex)
| Star (r : regex).

Inductive matches : regex -> str -> Prop :=
| m_chr c : matches (Chr c) [c]
| m_class (p : char -> bool) c : p c = true -> matches (Class p) [c]
| m_cat r1 r2 w1 w2 :
    matches r1 w1 -> matches r2 w2 -> matches (Cat r1 r2) (w1 ++ w2)
| m_star_nil r : matches (Star r) []
| m_star_cons r w1 w2 :
    matches r w1 -> matches (Star r) w2 -> matches (Star r) (w1 ++ w2).

Definition digits1 : regex := Cat (Class is_digit) (Star (Class is_digit)).

(** [ansi_re = re.compile('(\x1b' + r'\[\d*(?:;\d+)*?[a-zA-Z])')] *)
Definition ansi_re : regex :=
  Cat (Chr ESC)
   (Cat (Chr LBRACKET)
     (Cat (Star (Class is_digit))
       (Cat (Star (Cat (Chr SEMICOLON) digits1))
            (Class is_letter)))).

(** *** Running [ansi_re] at the head of a string

    [scan_params need_digit s] reads what follows ['\x1b['].  [need_digit]
    holds right after a [';'], where [\d+] wants its first digit.  The result
    is the matched prefix and the rest of the string. *)
Fixpoint scan_params (need_digit : bool) (s : str) : option (str * str) :=
  match s with
  | [] => None
  | c :: s' =>
      if is_digit c then
        match scan_params false s' with
        | Some (m, rest) => Some (c :: m, rest)
        | None => None
        end
      else if need_digit then None
      else if (c =? SEMICOLON)%N then
        match scan_params true s' with
        | Some (m, rest) => Some (c :: m, rest)
        | None => None
        end
      else if is_letter c then Some ([c], s')
      else None
  end.

(** [ansi_re.match(s)]: the match that starts at the head of [s], if any. *)
Definition match_ansi (s : str) : option (str * str) :=
  match s with
  | e :: b :: s' =>
      if ((e =? ESC) && (b =? LBRACKET))%N then
        match scan_params false s' with
        | Some (m, rest) => Some (e :: b :: m, rest)
        | None => None
        end
      else None
  | _ => None
  end.

(** [re.split] keeps the text chunk it is collecting at the head of its
    result. *)
Definition push_char (c : char) (l : list str) : list str :=
  match l with
  | [] => [[c]]
  | t :: l' => (c :: t) :: l'
  end.

(** [ansi_re.split(s)].  The pattern is one capture group, so the result
    alternates text and matches.  The search goes left to right; after a match
    it resumes behind it.  [n] bounds the number of steps. *)
Fixpoint split_fuel (n : nat) (s : str) : list str :=
  match n with
  | O => [s]
  | S n' =>
      match match_ansi s with
      | Some (m, rest) => [] :: m :: split_fuel n' rest
      | None =>
          match s with
          | [] => [[]]
          | c :: s' => push_char c (split_fuel n' s')
          end
      end
  end.

Definition split (s : str) : list str := split_fuel (S (length s)) s.

(** [ansi_re.sub('', s)] *)
Fixpoint sub_empty_fuel (n : nat) (s : str) : str :=
  match n with
  | O => s
  | S n' =>
      match match_ansi s with
      | Some (_, rest) => sub_empty_fuel n' rest
      | None =>
          match s with
          | [] => []
          | c :: s' => c :: sub_empty_fuel n' s'
          end
      end
  end.

Definition sub_empty (s : str) : str := sub_empty_fuel (S (length s)) s.

End Re.

(** ** Exceptions *)

(** The exceptions the two files can raise. *)
Inductive exn : Type :=
| ValueError
| IndexError
| CursesError.    (* curses.error *)

Inductive result (A : Type) : Type :=
| Ok (a : A)
| Raise (e : exn).
Arguments Ok {A} a.
Arguments Raise {A} e.

(** ** What the code reads from [curses] *)

Module Curses.

(** [curses] is not part of the repository: its attribute bits, the size of
    the palette, whether the terminal can redefine colours, the colours it
    starts with and the calls of [init_color] it accepts are parameters of
    the model.  The screen is taken to be initialised, so that
    [color_content] answers for the eight standard colours. *)
Record env : Type := {
  A_NORMAL : Z;
  A_BOLD : Z;
  A_BLINK : Z;
  A_REVERSE : Z;
  A_UNDERLINE : Z;
  A_INVIS : Z;
  COLORS : Z;
  can_change_color : bool;
  color_content0 : Z -> Z * Z * Z;
  init_color_ok : Z -> Z * Z * Z -> bool
}.

(** The eight colour numbers are fixed by the curses interface. *)
Definition COLOR_BLACK : Z := 0.
Definition COLOR_RED : Z := 1.
Definition COLOR_GREEN : Z := 2.
Definition COLOR_YELLOW : Z := 3.
Definition COLOR_BLUE : Z := 4.
Definition COLOR_MAGENTA : Z := 5.
Definition COLOR_CYAN : Z := 6.
Definition COLOR_WHITE : Z := 7.

(** The attribute bits of ncurses, and a 256 colour terminal that starts
    with the xterm palette for the eight standard colours. *)
Definition ncurses : env := {|
  A_NORMAL := 0;
  A_BOLD := 2097152;
  A_BLINK := 524288;
  A_REVERSE := 262144;
  A_UNDERLINE := 131072;
  A_INVIS := 8388608;
  COLORS := 256;
  can_change_color := true;
  color_content0 := fun c =>
    (if Z.testbit c 0 then 680 else 0,
     if Z.testbit c 1 then 680 else 0,
     if Z.testbit c 2 then 680 else 0);
  init_color_ok := fun colid '(r, g, b) =>
    (0 <=? colid) && (colid <? 256)
    && (0 <=? r) && (r <=? 1000) && (0 <=? g) && (g <=? 1000)
    && (0 <=? b) && (b <=? 1000)
|}.

End Curses.

(** ** ranger/gui/color.py *)

Module Color.

Section WithCurses.
Variable E : Curses.env.

Definition black := Curses.COLOR_BLACK.
Definition blue := Curses.COLOR_BLUE.
Definition cyan := Curses.COLOR_CYAN.
Definition green := Curses.COLOR_GREEN.
Definition magenta := Curses.COLOR_MAGENTA.
Definition red := Curses.COLOR_RED.
Definition white := Curses.COLOR_WHITE.
Definition yellow := Curses.COLOR_YELLOW.
Definition default : Z := -1.

Definition normal := Curses.A_NORMAL E.
Definition bold := Curses.A_BOLD E.
Definition blink := Curses.A_BLINK E.
Definition reverse := Curses.A_REVERSE E.
Definition underline := Curses.A_UNDERLINE E.
Definition invisible := Curses.A_INVIS E.

Definition default_colors : Z * Z * Z := (default, default, normal).

(** A Python [dict] keyed by colour triples, in insertion order. *)
Definition rgb := (Z * Z * Z)%type.
Definition dict := list (rgb * Z).

Definition rgb_eqb (a b : rgb) : bool :=
  let '(r1, g1, b1) := a in
  let '(r2, g2, b2) := b in
  ((r1 =? r2) && (g1 =? g2) && (b1 =? b2))%Z.

Fixpoint dict_get (k : rgb) (d : dict) : option Z :=
  match d with
  | [] => None
  | (k', v) :: d' => if rgb_eqb k k' then Some v else dict_get k d'
  end.

(** [d[k] = v] *)
Fixpoint dict_set (k : rgb) (v : Z) (d : dict) : dict :=
  match d with
  | [] => [(k, v)]
  | (k', v') :: d' =>
      if rgb_eqb k k' then (k, v) :: d' else (k', v') :: dict_set k v d'
  end.

(** The state [get_color_id] keeps in its function attributes, and the
    calls of [curses.init_color] it has made (newest first). *)
Record registry : Type := {
  Colors : option dict;
  NextColorIndex : Z;
  init_color_calls : list (Z * rgb)
}.

(** [@withattr(NextColorIndex=0) @withattr(Colors=None)] *)
Definition registry0 : registry :=
  {| Colors := None; NextColorIndex := 0; init_color_calls := [] |}.

Definition PredefinedColorCount : Z := 24.

Fixpoint assoc_Z (c : Z) (l : list (Z * rgb)) : option rgb :=
  match l with
  | [] => None
  | (c', v) :: l' => if (c =? c')%Z then Some v else assoc_Z c l'
  end.

(** [curses.color_content(c)] after the [init_color] calls made so far. *)
Definition color_content (st : registry) (c : Z) : rgb :=
  match assoc_Z c (init_color_calls st) with
  | Some v => v
  | None => Curses.color_content0 E c
  end.

(** [int(1000 * (float(c) / 256.0))].  Dividing by 256 is exact in binary
    floating point and so is the product while [125 * c] fits in 53 bits;
    [int] truncates towards zero.  (Beyond that the product is rounded, which
    is not modelled.) *)
Definition scale (c : Z) : Z := Z.quot (1000 * c) 256.

Definition get_color_id (r g b : Z) (st : registry)
    : result Z * registry :=
  let colors :=
    match Colors st with
    | Some ((_ :: _) as d) => d
    | _ =>
        fold_left (fun d color => dict_set (color_content st color) color d)
          [black; blue; cyan; green; magenta; red; white; yellow] []
    end in
  let st := {| Colors := Some colors;
               NextColorIndex := NextColorIndex st;
               init_color_calls := init_color_calls st |} in
  let predefined_color_count := PredefinedColorCount in
  let key := (scale r, scale g, scale b) in
  match dict_get key colors with
  | Some colid => (Ok colid, st)
  | None =>
      if ((Z.of_nat (length colors) + predefined_color_count >=? Curses.COLORS E)
          || negb (Curses.can_change_color E))%bool
      then (Ok (-1), st)
      else
        let colid :=
          NextColorIndex st mod (Curses.COLORS E - predefined_color_count)
          + predefined_color_count in
        if Curses.init_color_ok E colid key then
          (Ok colid, {| Colors := Some (dict_set key colid colors);
                        NextColorIndex := NextColorIndex st + 1;
                        init_color_calls := (colid, key) :: init_color_calls st |})
        else (Raise CursesError, st)
  end.

End WithCurses.

End Color.

(** ** ranger.ext.widestring, as far as ansi.py uses it *)

Module WideString.

Section WithWidth.

(** Modelled from the spec: [unicodedata.east_asian_width] is outside the
    repository; [wide c] says that [c] is one of the designated wide glyphs
    (two cells), every other glyph takes one cell. *)
Variable wide : char -> bool.

Definition width (c : char) : Z := if wide c then 2 else 1.

(** Modelled from the spec: [ranger/ext/widestring.py] is not under src/.
    [len(WideString(s))] is the number of display cells of [s]: the sum of
    the display widths of its characters. *)
Fixpoint len (s : str) : Z :=
  match s with
  | [] => 0
  | c :: s' => width c + len s'
  end.

(** Modelled from the spec: slicing a [WideString] is by cell index and never
    splits a wide glyph.  [drop_cells n s] removes the first [n] cells and
    [take_cells n s] keeps the first [n]; a wide glyph the cut goes through
    is replaced by one blank, so that the result has the cells asked for. *)
Fixpoint drop_cells (n : nat) (s : str) {struct s} : str :=
  match s with
  | [] => []
  | c :: s' =>
      match n with
      | O => s
      | S O => if wide c then SPACE :: s' else s'
      | S (S n'' as n') => if wide c then drop_cells n'' s' else drop_cells n' s'
      end
  end.

Fixpoint take_cells (n : nat) (s : str) {struct s} : str :=
  match s with
  | [] => []
  | c :: s' =>
      match n with
      | O => []
      | S O => if wide c then [SPACE] else [c]
      | S (S n'' as n') =>
          c :: (if wide c then take_cells n'' s' else take_cells n' s')
      end
  end.

(** Modelled from the spec: [str(WideString(s)[start:stop])], with the
    conventions of Python slices for [stop]: beyond the end it is the end, a
    negative one counts from the end.  [start] is [None] for [s[:stop]];
    [char_slice] never passes a negative [start], which is read as 0. *)
Definition getslice (s : str) (start : option Z) (stop : Z) : str :=
  let n := len s in
  let stop := if n <? stop then n else stop in
  let stop := if stop <? 0 then n + stop else stop in
  if stop <? 0 then []
  else
    let start :=
      match start with
      | None => 0
      | Some a => if a <? 0 then 0 else a
      end in
    take_cells (Z.to_nat (stop - start)) (drop_cells (Z.to_nat start) s).

End WithWidth.

End WideString.

(** ** ranger/gui/ansi.py *)

Module Ansi.

Definition ansi_re := Re.ansi_re.

(** [reset = '\x1b[0m'] *)
Definition reset : str := esc "[0m".

Definition split_ansi_from_text (ansi_text : str) : list str :=
  Re.split ansi_text.

(** *** Python helpers used by the resolver *)

(** [not x] for an integer [x], as the integer it is under [&]. *)
Definition py_not (x : Z) : Z := if x =? 0 then 1 else 0.

(** [s.split(';')] *)
Fixpoint split_semicolon (s : str) : list str :=
  match s with
  | [] => [[]]
  | c :: s' =>
      if (c =? SEMICOLON)%N then [] :: split_semicolon s'
      else Re.push_char c (split_semicolon s')
  end.

Definition is_space (c : char) : bool :=
  ((c =? 32) || ((9 <=? c) && (c <=? 13)))%N.

Fixpoint lstrip (s : str) : str :=
  match s with
  | c :: s' => if is_space c then lstrip s' else s
  | [] => []
  end.

Definition strip (s : str) : str := rev (lstrip (rev (lstrip s))).

Definition digit_value (c : char) : Z := Z.of_N c - 48.

(** [int(s)] for a byte string: blanks around, an optional sign, then one or
    more decimal digits; anything else is a [ValueError]. *)
Definition int_digits (s : str) : result Z :=
  match s with
  | [] => Raise ValueError
  | _ :: _ =>
      if forallb Re.is_digit s
      then Ok (fold_left (fun acc c => 10 * acc + digit_value c) s 0)
      else Raise ValueError
  end.

Definition int (s : str) : result Z :=
  match strip s with
  | c :: s' =>
      if (c =? 45)%N then
        match int_digits s' with Ok n => Ok (- n) | Raise e => Raise e end
      else if (c =? 43)%N then int_digits s'
      else int_digits (c :: s')
  | [] => Raise ValueError
  end.

(** [map(int, l)], the list it is under Python 2: the first failing element
    raises. *)
Fixpoint map_int (l : list str) : result (list Z) :=
  match l with
  | [] => Ok []
  | s :: l' =>
      match int s with
      | Raise e => Raise e
      | Ok n =>
          match map_int l' with
          | Raise e => Raise e
          | Ok ns => Ok (n :: ns)
          end
      end
  end.

(** Group 1 of the [re.match] in [text_with_fg_bg_attr], for a [chunk] that
    ends in ['m'].  The pattern is: start, any character, ['['], a group of
    any characters, any character, end; "any character" excludes the newline.
    So the first character is any but a newline, the second is ['['], the
    last is taken by the final dot and the group is what lies between, which
    must be free of newlines. *)
Definition attr_args_of (chunk : str) : option str :=
  match chunk with
  | c0 :: c1 :: body_last =>
      if (negb (c0 =? NEWLINE) && (c1 =? LBRACKET))%N then
        match rev body_last with
        | last :: rbody =>
            if (negb (last =? NEWLINE)%N
                && forallb (fun c => negb (c =? NEWLINE)%N) rbody)%bool
            then Some (rev rbody)
            else None
        | [] => None
        end
      else None
  | _ => None
  end.

Section Resolver.
Variable E : Curses.env.

Definition parse_attr (code fg bg attr : Z) : Z * Z * Z :=
  if code =? 0 then (-1, -1, 0)

  else if code =? 1 then (fg, bg, Z.lor attr (Color.bold E))
  else if code =? 4 then (fg, bg, Z.lor attr (Color.underline E))
  else if code =? 5 then (fg, bg, Z.lor attr (Color.blink E))
  else if code =? 7 then (fg, bg, Z.lor attr (Color.reverse E))
  else if code =? 8 then (fg, bg, Z.lor attr (Color.invisible E))

  else if code =? 22 then (fg, bg, Z.land attr (py_not (Color.bold E)))
  else if code =? 24 then (fg, bg, Z.land attr (py_not (Color.underline E)))
  else if code =? 25 then (fg, bg, Z.land attr (py_not (Color.blink E)))
  else if code =? 27 then (fg, bg, Z.land attr (py_not (Color.reverse E)))
  else if code =? 28 then (fg, bg, Z.land attr (py_not (Color.invisible E)))

  else if (30 <=? code) && (code <=? 37) then (code - 30, bg, attr)
  else if code =? 39 then (-1, bg, attr)
  else if (40 <=? code) && (code <=? 47) then (fg, code - 40, attr)
  else if code =? 49 then (fg, -1, attr)

  else if (90 <=? code) && (code <=? 97) then (code - 90 + 8, bg, attr)
  else if code =? 99 then (-1, bg, attr)
  else if (100 <=? code) && (code <=? 107) then (fg, code - 100 + 8, attr)
  else if code =? 109 then (fg, -1, attr)
  else (fg, bg, attr).

Definition parse_indexed_color (code : Z) : Z := code.

(** Computations that use the colour registry and may raise. *)
Definition M (A : Type) : Type := Color.registry -> result A * Color.registry.

Definition ret {A} (a : A) : M A := fun st => (Ok a, st).
Definition raise {A} (e : exn) : M A := fun st => (Raise e, st).
Definition bind {A B} (m : M A) (k : A -> M B) : M B :=
  fun st =>
    match m st with
    | (Ok a, st') => k a st'
    | (Raise e, st') => (Raise e, st')
    end.

Notation "x <- m ;; k" := (bind m (fun x => k))
  (at level 61, m at next level, right associativity).

(** [(r, g, b) = code] needs exactly three values. *)
Definition parse_rgb (code : list Z) : M Z :=
  match code with
  | [r; g; b] => Color.get_color_id E r g b
  | _ => raise ValueError
  end.

(** The [print] of the last branch is not modelled. *)
Definition parse_color (code : list Z) : M Z :=
  match code with
  | [] => raise IndexError
  | c0 :: code1 =>
      if c0 =? 5 then ret (parse_indexed_color c0)
      else if c0 =? 2 then parse_rgb code1
      else ret (-1)
  end.

Definition parse_ansi_code (code : list Z) (fg bg attr : Z) : M (Z * Z * Z) :=
  match code with
  | [] => raise IndexError
  | c0 :: code1 =>
      if c0 =? 38 then fg' <- parse_color code1 ;; ret (fg', bg, attr)
      else if c0 =? 48 then bg' <- parse_color code1 ;; ret (fg, bg', attr)
      else ret (parse_attr c0 fg bg attr)
  end.

(** What the generator yields: a text chunk or a colour state. *)
Inductive item : Type :=
| Text (chunk : str)
| State (fg bg attr : Z).

(** A run of the generator: what it yielded, and the exception that ended
    it, if one did. *)
Record run : Type := {
  yielded : list item;
  raised : option exn
}.

Definition yield (x : item) (r : run * Color.registry) : run * Color.registry :=
  ({| yielded := x :: yielded (fst r); raised := raised (fst r) |}, snd r).

(** The [for] loop of [text_with_fg_bg_attr], from a colour state and a
    registry state. *)
Fixpoint resolve_chunks (chunks : list str) (fg bg attr : Z)
    (st : Color.registry) : run * Color.registry :=
  match chunks with
  | [] => ({| yielded := []; raised := None |}, st)
  | chunk :: chunks' =>
      match chunk with
      | c0 :: _ =>
          if (c0 =? ESC)%N then
            if negb (last chunk 0 =? LOWER_M)%N then
              resolve_chunks chunks' fg bg attr st
            else
              match attr_args_of chunk with
              | None => resolve_chunks chunks' fg bg attr st
              | Some attr_args =>
                  match map_int (split_semicolon attr_args) with
                  | Raise e => ({| yielded := []; raised := Some e |}, st)
                  | Ok code =>
                      match parse_ansi_code code fg bg attr st with
                      | (Raise e, st') =>
                          ({| yielded := []; raised := Some e |}, st')
                      | (Ok (fg', bg', attr'), st') =>
                          yield (State fg' bg' attr')
                            (resolve_chunks chunks' fg' bg' attr' st')
                      end
                  end
              end
          else yield (Text chunk) (resolve_chunks chunks' fg bg attr st)
      | [] => yield (Text chunk) (resolve_chunks chunks' fg bg attr st)
      end
  end.

Definition text_with_fg_bg_attr (ansi_text : str) (st : Color.registry)
    : run * Color.registry :=
  resolve_chunks (split_ansi_from_text ansi_text) (-1) (-1) 0 st.

End Resolver.

Section Slicer.
Variable wide : char -> bool.

Definition char_len (ansi_text : str) : Z :=
  WideString.len wide (Re.sub_empty ansi_text).

(** The [for] loop of [char_slice]: [i] is the index [enumerate] gives,
    [acc] is the list [chunks] the loop appends to. *)
Fixpoint slice_loop (start length : Z) (l : list str) (i : nat)
    (last_color : str) (pos : Z) (acc : list str) : list str :=
  match l with
  | [] => acc
  | chunk :: l' =>
      if (i mod 2 =? 1)%nat then slice_loop start length l' (S i) chunk pos acc
      else
        let old_pos := pos in
        let pos := pos + WideString.len wide chunk in
        let acc :=
          if pos <=? start then acc
          else if (old_pos <? start) && (start <=? pos) then
            acc ++ [last_color;
                    WideString.getslice wide chunk (Some (start - old_pos))
                      (start - old_pos + length)]
          else if length + start <? pos then
            acc ++ [last_color;
                    WideString.getslice wide chunk None
                      (start - old_pos + length)]
          else acc ++ [last_color; chunk] in
        if length <=? pos - start then acc
        else slice_loop start length l' (S i) last_color pos acc
  end.

Definition char_slice (ansi_text : str) (start length : Z) : str :=
  concat (slice_loop start length (split_ansi_from_text ansi_text) 0 [] 0 []).

End Slicer.

End Ansi.

(** ** Vocabulary of the statements *)

(** A complete escape sequence: a word of [ansi_re]. *)
Definition is_escape (m : str) : Prop := Re.matches Re.ansi_re m.

(** Literal text: no substring is a word of [ansi_re]. *)
Definition match_free (t : str) : Prop :=
  forall pre m post, t = pre ++ m ++ post -> ~ is_escape m.

(** The shape of a tokenizer result: text, escape, text, ..., text. *)
Inductive alternating : list str -> Prop :=
| alt_last t : match_free t -> alternating [t]
| alt_cons t e l :
    match_free t -> is_escape e -> alternating l -> alternating (t :: e :: l).

(** The elements at even indices. *)
Fixpoint texts (l : list str) : list str :=
  match l with
  | t :: _ :: l' => t :: texts l'
  | _ => l
  end.

(** The words [scan_params] accepts, by the state it is in. *)
Inductive params_word : bool -> str -> Prop :=
| pw_letter c : Re.is_letter c = true -> params_word false [c]
| pw_digit b c w :
    Re.is_digit c = true -> params_word false w -> params_word b (c :: w)
| pw_semi w : params_word true w -> params_word false (SEMICOLON :: w).

(** The parts of [ansi_re]: a group [;\d+], what follows the introducer,
    and what follows a [';']. *)
Definition group : Re.regex := Re.Cat (Re.Chr SEMICOLON) Re.digits1.
Definition tail_re : Re.regex :=
  Re.Cat (Re.Star (Re.Class Re.is_digit))
    (Re.Cat (Re.Star group) (Re.Class Re.is_letter)).
Definition tail1_re : Re.regex :=
  Re.Cat Re.digits1 (Re.Cat (Re.Star group) (Re.Class Re.is_letter)).

(** The pattern [scan_params] still has to match, by its state. *)
Definition lang (need_digit : bool) : Re.regex :=
  if need_digit then tail1_re else tail_re.

(** The characters of a parameter list and its terminator. *)
Definition param_char (c : char) : bool :=
  (Re.is_digit c || Re.is_letter c || (c =? SEMICOLON)%N)%bool.

(** No match of [ansi_re] in [t ++ x] starts inside [t]. *)
Definition no_match_before (t x : str) : Prop :=
  forall pre suf, t = pre ++ suf -> suf <> [] -> Re.match_ansi (suf ++ x) = None.

(** [x] is empty or begins with the introducer byte. *)
Definition esc_or_end (x : str) : Prop := x = [] \/ exists x', x = ESC :: x'.

(** What [char_slice] appends for one text chunk [t] that begins at cell
    [pos], when the last escape sequence seen is [last_color]. *)
Definition emit (wide : char -> bool) (start length : Z)
    (last_color : str) (pos : Z) (t : str) : list str :=
  let pos' := pos + WideString.len wide t in
  if pos' <=? start then []
  else if (pos <? start) && (start <=? pos') then
    [last_color;
     WideString.getslice wide t (Some (start - pos)) (start - pos + length)]
  else if length + start <? pos' then
    [last_color; WideString.getslice wide t None (start - pos + length)]
  else [last_color; t].

(** The pieces of text in the list [char_slice] joins: it appends a colour
    and a piece of text in turn. *)
Fixpoint slices (out : list str) : list str :=
  match out with
  | _ :: sl :: out' => sl :: slices out'
  | _ => []
  end.

(** A list of escape sequences and literal text in turn. *)
Inductive colored : list str -> Prop :=
| colored_nil : colored []
| colored_cons e sl out :
    is_escape e -> match_free sl -> colored out -> colored (e :: sl :: out).

(** The same, when the first colour may be the empty [last_color] the loop
    starts with. *)
Definition colored0 (out : list str) : Prop :=
  out = [] \/
  exists c sl out', out = c :: sl :: out' /\
    (c = [] \/ is_escape c) /\ match_free sl /\ colored out'.

(** A width table for examples: the CJK blocks are wide. *)
Definition cjk_wide (c : char) : bool := ((12288 <=? c) && (c <=? 40959))%N.

(** "The token is passed through unchanged to the output" of
    [text_with_fg_bg_attr]: every escape sequence of [s] that does not end in
    ['m'] is among what the generator yields. *)
Definition passes_through (E : Curses.env) (s : str) (st : Color.registry)
    : Prop :=
  forall i tok,
    nth_error (Ansi.split_ansi_from_text s) i = Some tok ->
    is_escape tok -> last tok 0%N <> LOWER_M ->
    In (Ansi.Text tok) (Ansi.yielded (fst (Ansi.text_with_fg_bg_attr E s st))).

(** The string of the doctests of [char_slice]. *)
Definition test_string : str :=
  of_string "abcde" ++ esc "[30m" ++ of_string "foo" ++ esc "[31m"
  ++ of_string "bar" ++ esc "[0m" ++ of_string "normal".

(** [';'.join(params)] *)
Fixpoint join_semicolon (params : list str) : str :=
  match params with
  | [] => []
  | p :: ps =>
      match ps with
      | [] => p
      | _ :: _ => p ++ SEMICOLON :: join_semicolon ps
      end
  end.

(** The SGR token with the parameters [params]:
    ['\x1b[' + ';'.join(params) + 'm']. *)
Definition sgr (params : list str) : str :=
  ESC :: LBRACKET :: join_semicolon params ++ [LOWER_M].

Definition all_digits (p : str) : Prop := forallb Re.is_digit p = true.

(** A parameter that is written out: one or more decimal digits. *)
Definition digit_string (p : str) : Prop := p <> [] /\ all_digits p.

(** The number a digit string denotes. *)
Definition value (p : str) : Z :=
  fold_left (fun acc c => 10 * acc + Ansi.digit_value c) p 0.

(** What the loop of [text_with_fg_bg_attr] does with the outcome of
    [parse_ansi_code]: yield the new state and go on, or end with the
    exception. *)
Definition resolved (E : Curses.env) (chunks : list str)
    (r : result (Z * Z * Z) * Color.registry) : Ansi.run * Color.registry :=
  match r with
  | (Raise e, st') => ({| Ansi.yielded := []; Ansi.raised := Some e |}, st')
  | (Ok (fg', bg', attr'), st') =>
      Ansi.yield (Ansi.State fg' bg' attr')
        (Ansi.resolve_chunks E chunks fg' bg' attr' st')
  end.

(** The enable codes of [parse_attr] with the disable code and the attribute
    bit of each. *)
Definition toggles (E : Curses.env) : list (Z * Z * Z) :=
  [ (1, 22, Color.bold E); (4, 24, Color.underline E);
    (5, 25, Color.blink E); (7, 27, Color.reverse E);
    (8, 28, Color.invisible E) ].

(** ** ranger/gui/color.py: colour pairs *)

Module ColorPairs.

(** The keys of [COLOR_PAIRS]: the table starts as [{10: 0}], with an
    integer key, and [get_color] adds keys [(fg, bg)]. *)
Inductive key : Type :=
| IntKey (n : Z)
| PairKey (fg bg : Z).

Definition key_eqb (a b : key) : bool :=
  match a, b with
  | IntKey n, IntKey m => n =? m
  | PairKey f1 b1, PairKey f2 b2 => (f1 =? f2) && (b1 =? b2)
  | _, _ => false
  end.

Definition pairs := list (key * Z).

Fixpoint pairs_get (k : key) (d : pairs) : option Z :=
  match d with
  | [] => None
  | (k', v) :: d' => if key_eqb k k' then Some v else pairs_get k d'
  end.

(** The module-level table, and the calls of [curses.init_pair] that went
    through (newest first). *)
Record state : Type := {
  COLOR_PAIRS : pairs;
  init_pair_calls : list (Z * Z * Z)
}.

(** [COLOR_PAIRS = {10: 0}] *)
Definition state0 : state :=
  {| COLOR_PAIRS := [(IntKey 10, 0)]; init_pair_calls := [] |}.

Definition DEFAULT_FOREGROUND : Z := Curses.COLOR_WHITE.
Definition DEFAULT_BACKGROUND : Z := Curses.COLOR_BLACK.

Section WithCurses.

(** [init_pair_ok n fg bg]: [curses.init_pair(n, fg, bg)] does not raise
    [curses.error]. *)
Variable init_pair_ok : Z -> Z -> Z -> bool.

(** [get_color(fg, bg)].  The key is absent where the table is extended, so
    [COLOR_PAIRS[key] = size] adds an entry at the end. *)
Definition get_color (fg bg : Z) (st : state) : Z * state :=
  let key := PairKey fg bg in
  match pairs_get key (COLOR_PAIRS st) with
  | Some n => (n, st)
  | None =>
      let size := Z.of_nat (length (COLOR_PAIRS st)) in
      let calls :=
        if init_pair_ok size fg bg then (size, fg, bg) :: init_pair_calls st
        else
          let fg := if fg =? -1 then DEFAULT_FOREGROUND else fg in
          let bg := if bg =? -1 then DEFAULT_BACKGROUND else bg in
          if init_pair_ok size fg bg then (size, fg, bg) :: init_pair_calls st
          else init_pair_calls st in
      (size, {| COLOR_PAIRS := COLOR_PAIRS st ++ [(key, size)];
                init_pair_calls := calls |})
  end.

End WithCurses.

End ColorPairs.

(** ** Vocabulary of the further properties *)

(** The states of the pair table that calls of [get_color] reach from the
    table the module starts with. *)
Inductive pairs_reachable (ok : Z -> Z -> Z -> bool) : ColorPairs.state -> Prop :=
| pr_init : pairs_reachable ok ColorPairs.state0
| pr_step st fg bg :
    pairs_reachable ok st ->
    pairs_reachable ok (snd (ColorPairs.get_color ok fg bg st)).


(** The table of a registry: empty before the first call. *)
Definition registry_dict (st : Color.registry) : Color.dict :=
  match Color.Colors st with
  | Some d => d
  | None => []
  end.

(** The key [get_color_id] looks a colour up under. *)
Definition scaled (r g b : Z) : Color.rgb :=
  (Color.scale r, Color.scale g, Color.scale b).

(** The five attribute bits together. *)
Definition attr_mask (E : Curses.env) : Z :=
  Z.lor (Color.bold E)
    (Z.lor (Color.underline E)
       (Z.lor (Color.blink E) (Z.lor (Color.reverse E) (Color.invisible E)))).

(** A colour number [parse_attr] can set: default, standard or bright. *)
Definition ansi_color (c : Z) : Prop := -1 <= c <= 15.

(** The codes of [parse_attr] that enable an attribute. *)
Definition enable_code (code : Z) : Prop :=
  code = 1 \/ code = 4 \/ code = 5 \/ code = 7 \/ code = 8.

(** The codes on which [parse_attr] may change [fg], [bg] and [attr]. *)
Definition fg_code (code : Z) : Prop :=
  code = 0 \/ 30 <= code <= 37 \/ code = 39 \/ 90 <= code <= 97 \/ code = 99.
Definition bg_code (code : Z) : Prop :=
  code = 0 \/ 40 <= code <= 47 \/ code = 49 \/ 100 <= code <= 107
  \/ code = 109.
Definition attr_code (code : Z) : Prop :=
  code = 0 \/ enable_code code \/ code = 22 \/ code = 24 \/ code = 25
  \/ code = 27 \/ code = 28.

(** [parse_attr] as a step on the colour state. *)
Definition attr_step (E : Curses.env) (code : Z) (s : Z * Z * Z) : Z * Z * Z :=
  let '(fg, bg, attr) := s in Ansi.parse_attr E code fg bg attr.

(** The colours in the list [char_slice] joins: its elements at even
    positions. *)
Fixpoint colors_of (out : list str) : list str :=
  match out with
  | c :: _ :: out' => c :: colors_of out'
  | _ => []
  end.

(** The table [get_color_id] builds on its first call: the eight standard
    colours under their [color_content]. *)
Definition initial_dict (E : Curses.env) (st : Color.registry) : Color.dict :=
  fold_left (fun d color => Color.dict_set (Color.color_content E st color) color d)
    [Color.black; Color.blue; Color.cyan; Color.green; Color.magenta;
     Color.red; Color.white; Color.yellow] [].

(** The table a call of [get_color_id] works with: the one it has, or the
    initial one if it has none or an empty one. *)
Definition current_dict (E : Curses.env) (st : Color.registry) : Color.dict :=
  match Color.Colors st with
  | Some ((_ :: _) as d) => d
  | _ => initial_dict E st
  end.

(** A registry with the table [d] in place of its own. *)
Definition with_dict (d : Color.dict) (st : Color.registry) : Color.registry :=
  {| Color.Colors := Some d;
     Color.NextColorIndex := Color.NextColorIndex st;
     Color.init_color_calls := Color.init_color_calls st |}.

(** The palette slot [get_color_id] takes for a new colour. *)
Definition next_slot (E : Curses.env) (st : Color.registry) : Z :=
  Color.NextColorIndex st mod (Curses.COLORS E - Color.PredefinedColorCount)
  + Color.PredefinedColorCount.

(** No room for a new colour: the table is full or the terminal cannot
    redefine colours. *)
Definition exhausted (E : Curses.env) (st : Color.registry) : bool :=
  (Z.of_nat (List.length (current_dict E st)) + Color.PredefinedColorCount
   >=? Curses.COLORS E)
  || negb (Curses.can_change_color E).

Definition init_pair_ids (st : ColorPairs.state) : list Z :=
  map (fun c : Z * Z * Z => fst (fst c)) (ColorPairs.init_pair_calls st).


(** What holds of every pair table that calls reach: the entries are
    numbered in order, from the entry [10: 0] on. *)
Definition pairs_inv (st : ColorPairs.state) : Prop :=
  (exists tl, ColorPairs.COLOR_PAIRS st = (ColorPairs.IntKey 10, 0) :: tl) /\
  map snd (ColorPairs.COLOR_PAIRS st)
  = map Z.of_nat (seq 0 (List.length (ColorPairs.COLOR_PAIRS st))) /\
  (forall k v, In (k, v) (ColorPairs.COLOR_PAIRS st) ->
     k = ColorPairs.IntKey 10 \/ exists fg bg, k = ColorPairs.PairKey fg bg) /\
  NoDup (init_pair_ids st) /\
  (forall c, In c (init_pair_ids st) ->
     1 <= c < Z.of_nat (List.length (ColorPairs.COLOR_PAIRS st))).


(** A terminal on which every call of [init_pair] goes through. *)
Definition init_pair_always : Z -> Z -> Z -> bool := fun _ _ _ => true.

(** Lists of written-out parameters. *)
Ltac solve_digits :=
  repeat first
    [ assumption
    | apply Forall_nil
    | apply Forall_cons
    | (split; [discriminate | reflexivity]) ].

(** * Properties *)

(** ** The scanner and the pattern *)

Module ReFacts.
Import Re.

Lemma letter_not_digit c : is_letter c = true -> is_digit c = false.
Proof.
  unfold is_letter, is_digit. intros H.
  apply Bool.andb_false_iff.
  apply Bool.orb_true_iff in H.
  destruct H as [H | H]; apply Bool.andb_true_iff in H; destruct H as [H1 H2];
    apply N.leb_le in H1; apply N.leb_le in H2;
    right; apply N.leb_gt; lia.
Qed.

Lemma letter_not_semicolon c : is_letter c = true -> (c =? SEMICOLON)%N = false.
Proof.
  unfold is_letter, SEMICOLON. intros H.
  apply N.eqb_neq. intros ->. discriminate H.
Qed.

Lemma scan_params_sound b s m rest :
  scan_params b s = Some (m, rest) -> s = m ++ rest /\ params_word b m.
Proof.
  revert b m rest. induction s as [|c s IH]; intros b m rest H; simpl in H.
  - discriminate.
  - destruct (is_digit c) eqn:Hd.
    + destruct (scan_params false s) as [[m' r']|] eqn:Hs; [|discriminate].
      injection H as <- <-. destruct (IH _ _ _ Hs) as [-> Hw].
      split; [reflexivity | now constructor].
    + destruct b; [discriminate|].
      destruct (N.eqb_spec c SEMICOLON) as [->|Hne].
      * destruct (scan_params true s) as [[m' r']|] eqn:Hs; [|discriminate].
        injection H as <- <-. destruct (IH _ _ _ Hs) as [-> Hw].
        split; [reflexivity | now constructor].
      * destruct (is_letter c) eqn:Hl; [|discriminate].
        injection H as <- <-. split; [reflexivity | now constructor].
Qed.

Lemma scan_params_complete b m rest :
  params_word b m -> scan_params b (m ++ rest) = Some (m, rest).
Proof.
  induction 1 as [c Hl | b c w Hd Hw IH | w Hw IH]; simpl.
  - rewrite (letter_not_digit _ Hl), (letter_not_semicolon _ Hl), Hl.
    reflexivity.
  - rewrite Hd, IH. reflexivity.
  - rewrite IH. reflexivity.
Qed.

(** *** Inversion of [matches] *)

Lemma matches_chr c w : matches (Chr c) w -> w = [c].
Proof. inversion 1; reflexivity. Qed.

Lemma matches_class p w :
  matches (Class p) w -> exists c, w = [c] /\ p c = true.
Proof. inversion 1; subst; eauto. Qed.

Lemma matches_cat r1 r2 w :
  matches (Cat r1 r2) w ->
  exists w1 w2, w = w1 ++ w2 /\ matches r1 w1 /\ matches r2 w2.
Proof. inversion 1; subst; eauto. Qed.

Lemma matches_star_ind r (P : str -> Prop) :
  P [] ->
  (forall w1 w2, matches r w1 -> matches (Star r) w2 -> P w2 -> P (w1 ++ w2)) ->
  forall w, matches (Star r) w -> P w.
Proof.
  intros Hnil Hcons w H. remember (Star r) as sr eqn:E.
  induction H; try discriminate; injection E as ->; auto.
Qed.

Lemma params_word_matches b w : params_word b w -> matches (lang b) w.
Proof.
  induction 1 as [c Hl | b c w Hd Hw IH | w Hw IH].
  - change [c] with ([] ++ ([] ++ [c])).
    repeat constructor. exact Hl.
  - simpl in IH. apply matches_cat in IH. destruct IH as (ds & r & -> & Hds & Hr).
    destruct b; simpl.
    + change (c :: ds ++ r) with (([c] ++ ds) ++ r).
      constructor; [|exact Hr]. constructor; [now constructor | exact Hds].
    + change (c :: ds ++ r) with (([c] ++ ds) ++ r).
      constructor; [|exact Hr]. constructor; [now constructor | exact Hds].
  - simpl in IH. apply matches_cat in IH. destruct IH as (d1 & r & -> & Hd1 & Hr).
    apply matches_cat in Hr. destruct Hr as (gs & lw & -> & Hgs & Hlw).
    simpl.
    replace (SEMICOLON :: d1 ++ gs ++ lw)
      with ([] ++ ((([SEMICOLON] ++ d1) ++ gs) ++ lw))
      by (simpl; now rewrite <- app_assoc).
    constructor; [constructor|].
    constructor; [|exact Hlw].
    constructor; [|exact Hgs].
    constructor; [constructor | exact Hd1].
Qed.

Lemma digits_word b ds w :
  matches (Star (Class is_digit)) ds ->
  params_word false w ->
  (ds <> [] \/ b = false) ->
  params_word b (ds ++ w).
Proof.
  intros Hds Hw. revert b.
  induction Hds as [| w1 w2 H1 H2 IH] using matches_star_ind; intros b Hb.
  - destruct Hb as [Hb | ->]; [congruence | exact Hw].
  - apply matches_class in H1. destruct H1 as (c & -> & Hc).
    simpl. constructor; [exact Hc|]. apply IH. now right.
Qed.

Lemma groups_word gs c :
  matches (Star group) gs -> is_letter c = true ->
  params_word false (gs ++ [c]).
Proof.
  intros Hgs Hc.
  induction Hgs as [| w1 w2 H1 H2 IH] using matches_star_ind.
  - now constructor.
  - apply matches_cat in H1. destruct H1 as (sc & d1 & -> & Hsc & Hd1).
    apply matches_chr in Hsc. subst sc.
    apply matches_cat in Hd1. destruct Hd1 as (d & ds & -> & Hd & Hds).
    apply matches_class in Hd. destruct Hd as (c0 & -> & Hc0).
    simpl. rewrite <- app_assoc. apply pw_semi. apply pw_digit; [exact Hc0|].
    apply digits_word; auto.
Qed.

Lemma matches_params_word w : matches tail_re w -> params_word false w.
Proof.
  intros H. apply matches_cat in H. destruct H as (ds & r & -> & Hds & Hr).
  apply matches_cat in Hr. destruct Hr as (gs & lw & -> & Hgs & Hlw).
  apply matches_class in Hlw. destruct Hlw as (c & -> & Hc).
  apply digits_word; auto. now apply groups_word.
Qed.

(** An escape sequence is the introducer and a word of the scanner. *)
Lemma is_escape_iff m :
  is_escape m <-> exists w, m = ESC :: LBRACKET :: w /\ params_word false w.
Proof.
  split.
  - intros H. apply matches_cat in H. destruct H as (e & r & -> & He & Hr).
    apply matches_chr in He. subst e.
    apply matches_cat in Hr. destruct Hr as (b & w & -> & Hb & Hw).
    apply matches_chr in Hb. subst b.
    exists w. split; [reflexivity | now apply matches_params_word].
  - intros (w & -> & Hw).
    change (ESC :: LBRACKET :: w) with ([ESC] ++ ([LBRACKET] ++ w)).
    constructor; [constructor|]. constructor; [constructor|].
    exact (params_word_matches Hw).
Qed.

(** [match_ansi] finds exactly the words of [ansi_re] at the head of a
    string, and there is at most one. *)
Lemma match_ansi_sound s m rest :
  match_ansi s = Some (m, rest) -> s = m ++ rest /\ is_escape m.
Proof.
  unfold match_ansi. intros H.
  destruct s as [|e [|b s]]; try discriminate.
  destruct (N.eqb_spec e ESC) as [->|]; [|discriminate].
  destruct (N.eqb_spec b LBRACKET) as [->|]; [|discriminate].
  simpl in H.
  destruct (scan_params false s) as [[w r]|] eqn:Hs; [|discriminate].
  injection H as <- <-.
  apply scan_params_sound in Hs. destruct Hs as [-> Hw].
  split; [reflexivity|]. apply is_escape_iff. eauto.
Qed.

Lemma match_ansi_complete m rest :
  is_escape m -> match_ansi (m ++ rest) = Some (m, rest).
Proof.
  intros H. apply is_escape_iff in H. destruct H as (w & -> & Hw).
  simpl. rewrite (scan_params_complete rest Hw). reflexivity.
Qed.

End ReFacts.

(** ** The tokenizer *)

Module SplitFacts.
Import Re ReFacts.

Lemma match_ansi_shorter s m rest :
  match_ansi s = Some (m, rest) -> (length rest < length s)%nat.
Proof.
  intros H. destruct s as [|e [|b s]]; try discriminate.
  simpl in H. destruct ((e =? ESC)%N && (b =? LBRACKET)%N); [|discriminate].
  destruct (scan_params false s) as [[w r]|] eqn:Hs; [|discriminate].
  injection H as <- <-. apply scan_params_sound in Hs. destruct Hs as [-> _].
  simpl. rewrite length_app. lia.
Qed.

(** Enough fuel: the result does not depend on it. *)
Lemma split_fuel_enough n k s :
  (length s < n)%nat -> (length s < k)%nat -> split_fuel n s = split_fuel k s.
Proof.
  revert k s. induction n as [|n IH]; intros k s Hn Hk; [lia|].
  destruct k as [|k]; [lia|]. simpl.
  destruct (match_ansi s) as [[m rest]|] eqn:Hm.
  - apply match_ansi_shorter in Hm. f_equal. f_equal. apply IH; lia.
  - destruct s as [|c s]; [reflexivity|]. simpl in Hn, Hk.
    f_equal. apply IH; lia.
Qed.

Lemma sub_empty_fuel_enough n k s :
  (length s < n)%nat -> (length s < k)%nat ->
  sub_empty_fuel n s = sub_empty_fuel k s.
Proof.
  revert k s. induction n as [|n IH]; intros k s Hn Hk; [lia|].
  destruct k as [|k]; [lia|]. simpl.
  destruct (match_ansi s) as [[m rest]|] eqn:Hm.
  - apply match_ansi_shorter in Hm. apply IH; lia.
  - destruct s as [|c s]; [reflexivity|]. simpl in Hn, Hk.
    f_equal. apply IH; lia.
Qed.

(** The equations of [split] and [sub_empty], without fuel. *)
Lemma split_eq s :
  split s =
  match match_ansi s with
  | Some (m, rest) => [] :: m :: split rest
  | None =>
      match s with
      | [] => [[]]
      | c :: s' => push_char c (split s')
      end
  end.
Proof.
  unfold split at 1. simpl.
  destruct (match_ansi s) as [[m rest]|] eqn:Hm.
  - apply match_ansi_shorter in Hm. f_equal. f_equal.
    apply split_fuel_enough; lia.
  - destruct s as [|c s]; reflexivity.
Qed.

Lemma sub_empty_eq s :
  sub_empty s =
  match match_ansi s with
  | Some (_, rest) => sub_empty rest
  | None =>
      match s with
      | [] => []
      | c :: s' => c :: sub_empty s'
      end
  end.
Proof.
  unfold sub_empty at 1. simpl.
  destruct (match_ansi s) as [[m rest]|] eqn:Hm.
  - apply match_ansi_shorter in Hm. apply sub_empty_fuel_enough; lia.
  - destruct s as [|c s]; reflexivity.
Qed.

(** Induction along the scan. *)
Lemma scan_ind (P : str -> Prop) :
  (forall s m rest, match_ansi s = Some (m, rest) -> P rest -> P s) ->
  P [] ->
  (forall c s, match_ansi (c :: s) = None -> P s -> P (c :: s)) ->
  forall s, P s.
Proof.
  intros Hm Hnil Hc s.
  remember (length s) as n eqn:En.
  revert s En. induction n as [n IH] using lt_wf_ind. intros s ->.
  destruct (match_ansi s) as [[m rest]|] eqn:E.
  - apply (Hm _ _ _ E). apply (IH (length rest)); [|reflexivity].
    now apply match_ansi_shorter in E.
  - destruct s as [|c s]; [exact Hnil|].
    apply (Hc _ _ E). apply (IH (length s)); [simpl; lia | reflexivity].
Qed.

Lemma split_not_nil s : split s <> [].
Proof.
  rewrite split_eq. destruct (match_ansi s) as [[m rest]|]; [discriminate|].
  destruct s as [|c s]; [discriminate|].
  destruct (split s); discriminate.
Qed.

Lemma concat_push_char c l : l <> [] -> concat (push_char c l) = c :: concat l.
Proof. destruct l; [congruence | reflexivity]. Qed.

Lemma concat_split s : concat (split s) = s.
Proof.
  induction s as [s m rest Hm IH | | c s Hm IH] using scan_ind;
    rewrite split_eq.
  - rewrite Hm. simpl. rewrite IH.
    apply match_ansi_sound in Hm. symmetry. apply Hm.
  - reflexivity.
  - rewrite Hm. rewrite concat_push_char by apply split_not_nil.
    now rewrite IH.
Qed.

(** *** Text chunks are free of matches *)

Lemma params_word_chars b w :
  params_word b w -> Forall (fun c => param_char c = true) w.
Proof.
  unfold param_char.
  induction 1 as [c Hl | b c w Hd Hw IH | w Hw IH]; constructor; auto.
  - rewrite Hl. now rewrite Bool.orb_true_r.
  - now rewrite Hd.
Qed.

Lemma is_escape_shape m :
  is_escape m ->
  exists w, m = ESC :: LBRACKET :: w /\ Forall (fun c => param_char c = true) w.
Proof.
  intros H. apply is_escape_iff in H. destruct H as (w & -> & Hw).
  exists w. split; [reflexivity | exact (params_word_chars Hw)].
Qed.

Lemma is_escape_not_nil m : is_escape m -> m <> [].
Proof. intros H. apply is_escape_shape in H. destruct H as (w & -> & _). discriminate. Qed.

Lemma is_escape_head m : is_escape m -> exists m', m = ESC :: m'.
Proof. intros H. apply is_escape_shape in H. destruct H as (w & -> & _). eauto. Qed.

(** The introducer byte occurs only at the head of an escape sequence. *)
Lemma is_escape_tail m c m' : is_escape m -> m = c :: m' -> ~ In ESC m'.
Proof.
  intros H E. apply is_escape_shape in H. destruct H as (w & -> & Hw).
  injection E as _ <-. intros [Hin | Hin]; [discriminate|].
  rewrite Forall_forall in Hw. apply Hw in Hin. discriminate.
Qed.

Lemma is_escape_no_char c m :
  is_escape m -> param_char c = false -> c <> ESC -> c <> LBRACKET -> ~ In c m.
Proof.
  intros H Hc H1 H2. apply is_escape_shape in H. destruct H as (w & -> & Hw).
  intros [Hin | [Hin | Hin]]; [congruence | congruence |].
  rewrite Forall_forall in Hw. apply Hw in Hin. congruence.
Qed.

Lemma match_free_nil : match_free [].
Proof.
  intros pre m post E H. apply is_escape_not_nil in H.
  destruct pre; [destruct m; [congruence | discriminate] | discriminate].
Qed.

Lemma match_free_suffix p t : match_free (p ++ t) -> match_free t.
Proof.
  intros H pre m post E. apply (H (p ++ pre) m post).
  rewrite E. now rewrite app_assoc.
Qed.

Lemma match_free_prefix t q : match_free (t ++ q) -> match_free t.
Proof.
  intros H pre m post E. apply (H pre m (post ++ q)).
  rewrite E. now rewrite <- !app_assoc.
Qed.

Lemma match_free_cons c t x :
  match_ansi (c :: t ++ x) = None -> match_free t -> match_free (c :: t).
Proof.
  intros Hm Ht pre m post E Hesc.
  destruct pre as [|c' pre]; simpl in E.
  - pose proof (match_ansi_complete (post ++ x) Hesc) as Hc.
    rewrite app_assoc, <- E in Hc.
    change ((c :: t) ++ x) with (c :: t ++ x) in Hc. congruence.
  - injection E as _ E. exact (Ht _ _ _ E Hesc).
Qed.

(** A character that no escape sequence contains can be put in front of or
    behind literal text. *)
Lemma match_free_cons_other c t :
  (forall m, is_escape m -> ~ In c m) -> match_free t -> match_free (c :: t).
Proof.
  intros Hc Ht pre m post E Hesc.
  destruct pre as [|c' pre]; simpl in E.
  - destruct m as [|c0 m]; [now apply is_escape_not_nil in Hesc|].
    injection E as -> _. apply (Hc _ Hesc). now left.
  - injection E as _ E. exact (Ht _ _ _ E Hesc).
Qed.

Lemma match_free_snoc_other c t :
  (forall m, is_escape m -> ~ In c m) -> match_free t -> match_free (t ++ [c]).
Proof.
  intros Hc Ht pre m post E Hesc.
  destruct post as [|p post _] using rev_ind.
  - rewrite app_nil_r in E.
    destruct m as [|m0 m _] using rev_ind; [now apply is_escape_not_nil in Hesc|].
    rewrite app_assoc in E. apply app_inj_tail in E. destruct E as [_ ->].
    apply (Hc _ Hesc). apply in_or_app. right. now left.
  - rewrite !app_assoc in E. apply app_inj_tail in E. destruct E as [E _].
    rewrite <- app_assoc in E. exact (Ht _ _ _ E Hesc).
Qed.

Lemma no_match_before_of_free t x :
  match_free t -> esc_or_end x -> no_match_before t x.
Proof.
  intros Ht Hx pre suf -> Hsuf.
  destruct (match_ansi (suf ++ x)) as [[m r]|] eqn:Hm; [exfalso | reflexivity].
  apply match_ansi_sound in Hm. destruct Hm as [E Hesc].
  apply app_eq_app in E. destruct E as (l & [[-> _] | [-> E]]).
  - apply (Ht pre m l); [reflexivity | exact Hesc].
  - destruct l as [|c l].
    + rewrite app_nil_r in Hesc. apply (Ht pre suf []); [|exact Hesc].
      now rewrite app_nil_r.
    + destruct Hx as [-> | (x' & ->)]; [discriminate|].
      injection E as <- _.
      destruct suf as [|c suf]; [congruence|].
      apply (is_escape_tail Hesc eq_refl).
      apply in_or_app. right. now left.
Qed.

Lemma alternating_push c l :
  alternating l -> match_ansi (c :: concat l) = None ->
  alternating (push_char c l).
Proof.
  intros Hl Hm. destruct Hl as [t Ht | t e l Ht He Hl]; simpl in *.
  - constructor. rewrite app_nil_r in Hm.
    apply match_free_cons with (x := []); [now rewrite app_nil_r | exact Ht].
  - constructor; auto. exact (match_free_cons _ Hm Ht).
Qed.

Lemma alternating_split s : alternating (split s).
Proof.
  induction s as [s m rest Hm IH | | c s Hm IH] using scan_ind;
    rewrite split_eq.
  - rewrite Hm. apply match_ansi_sound in Hm.
    constructor; [apply match_free_nil | apply Hm | exact IH].
  - simpl. constructor. apply match_free_nil.
  - rewrite Hm. apply alternating_push; [exact IH|].
    now rewrite concat_split.
Qed.

Lemma texts_push_char c l :
  l <> [] -> concat (texts (push_char c l)) = c :: concat (texts l).
Proof. destruct l as [|t [|e l]]; [congruence | reflexivity | reflexivity]. Qed.

(** [ansi_re.sub('', s)] is the text chunks of [ansi_re.split(s)]. *)
Lemma sub_empty_texts s : sub_empty s = concat (texts (split s)).
Proof.
  induction s as [s m rest Hm IH | | c s Hm IH] using scan_ind;
    rewrite split_eq, sub_empty_eq.
  - rewrite Hm. simpl. exact IH.
  - reflexivity.
  - rewrite Hm. rewrite texts_push_char by apply split_not_nil.
    now rewrite IH.
Qed.

(** *** Scanning a concatenation *)

Lemma no_match_before_cons c t x :
  no_match_before (c :: t) x -> no_match_before t x.
Proof. intros H pre suf E. apply (H (c :: pre) suf). now rewrite E. Qed.

Lemma sub_empty_app_text t x :
  no_match_before t x -> sub_empty (t ++ x) = t ++ sub_empty x.
Proof.
  induction t as [|c t IH]; intros H; [reflexivity|].
  rewrite sub_empty_eq. rewrite (H [] (c :: t) eq_refl) by discriminate.
  simpl. f_equal. apply IH. exact (no_match_before_cons H).
Qed.

Lemma sub_empty_app_escape e x :
  is_escape e -> sub_empty (e ++ x) = sub_empty x.
Proof.
  intros H. rewrite sub_empty_eq. now rewrite (match_ansi_complete x H).
Qed.

Lemma split_app_text t x :
  no_match_before t x ->
  split (t ++ x) = (t ++ hd [] (split x)) :: tl (split x).
Proof.
  induction t as [|c t IH]; intros H.
  - simpl. pose proof (split_not_nil x). destruct (split x); [congruence | reflexivity].
  - rewrite split_eq. rewrite (H [] (c :: t) eq_refl) by discriminate.
    simpl. rewrite IH by exact (no_match_before_cons H). reflexivity.
Qed.

Lemma split_app_escape e x :
  is_escape e -> split (e ++ x) = [] :: e :: split x.
Proof.
  intros H. rewrite split_eq. now rewrite (match_ansi_complete x H).
Qed.

Lemma split_text_escape t e x :
  match_free t -> is_escape e -> split (t ++ e ++ x) = t :: e :: split x.
Proof.
  intros Ht He. rewrite split_app_text.
  - rewrite (split_app_escape x He). simpl. now rewrite app_nil_r.
  - apply no_match_before_of_free; [exact Ht|].
    destruct (is_escape_head He) as (e' & ->). right. simpl. eauto.
Qed.

Lemma sub_empty_text_escape t e x :
  match_free t -> is_escape e -> sub_empty (t ++ e ++ x) = t ++ sub_empty x.
Proof.
  intros Ht He. rewrite sub_empty_app_text.
  - now rewrite (sub_empty_app_escape x He).
  - apply no_match_before_of_free; [exact Ht|].
    destruct (is_escape_head He) as (e' & ->). right. simpl. eauto.
Qed.

End SplitFacts.

(** ** Cells and slices of wide strings *)

Module WideFacts.
Import WideString SplitFacts.

Section WithWidth.
Variable wide : char -> bool.

Lemma width_pos c : 1 <= width wide c <= 2.
Proof. unfold width. destruct (wide c); lia. Qed.

Lemma len_nonneg s : 0 <= len wide s.
Proof.
  induction s as [|c s IH]; simpl; [lia|].
  pose proof (width_pos c). lia.
Qed.

Lemma len_app a b : len wide (a ++ b) = len wide a + len wide b.
Proof. induction a as [|c a IH]; simpl; [reflexivity | rewrite IH; lia]. Qed.



Lemma drop_cells_0 s : drop_cells wide 0 s = s.
Proof. destruct s; reflexivity. Qed.

(** With a [stop] that is not negative, a slice is [take] after [drop]. *)
Lemma getslice_inside s start stop :
  0 <= stop ->
  getslice wide s start stop =
  let a := match start with
           | None => 0
           | Some a => if a <? 0 then 0 else a
           end in
  take_cells wide (Z.to_nat (Z.min stop (len wide s) - a))
    (drop_cells wide (Z.to_nat a) s).
Proof.
  intros Hstop. unfold getslice. cbv zeta. pose proof (len_nonneg s) as Hs.
  replace (if len wide s <? stop then len wide s else stop)
    with (Z.min stop (len wide s))
    by (destruct (Z.ltb_spec (len wide s) stop); lia).
  assert (E : (Z.min stop (len wide s) <? 0) = false) by (apply Z.ltb_ge; lia).
  rewrite E. cbv iota. rewrite E. reflexivity.
Qed.

Section Blank.
(** The blank that stands for half a glyph takes one cell. *)
Hypothesis blank_narrow : wide SPACE = false.





End Blank.

(** *** Slices of literal text are literal text *)

Lemma blank_not_in_escape m : is_escape m -> ~ In SPACE m.
Proof.
  intros H. apply (is_escape_no_char H); [reflexivity | discriminate | discriminate].
Qed.

Lemma match_free_drop_cells n t :
  match_free t -> match_free (drop_cells wide n t).
Proof.
  revert n. induction t as [|c t IH]; intros n Ht; [exact Ht|].
  assert (Ht' : match_free t) by exact (@match_free_suffix [c] t Ht).
  destruct n as [|[|n]]; cbn [drop_cells].
  - exact Ht.
  - destruct (wide c); [|exact Ht'].
    apply match_free_cons_other; [exact blank_not_in_escape | exact Ht'].
  - destruct (wide c); apply IH; exact Ht'.
Qed.

Lemma take_cells_shape n t :
  exists p q, t = p ++ q /\
    (take_cells wide n t = p \/ take_cells wide n t = p ++ [SPACE]).
Proof.
  revert n. induction t as [|c t IH]; intros n.
  - exists [], []. split; [reflexivity | now left].
  - destruct n as [|[|n]]; cbn [take_cells].
    + exists [], (c :: t). split; [reflexivity | now left].
    + destruct (wide c).
      * exists [], (c :: t). split; [reflexivity | now right].
      * exists [c], t. split; [reflexivity | now left].
    + destruct (wide c).
      * destruct (IH n) as (p & q & -> & [-> | ->]);
          exists (c :: p), q; (split; [reflexivity | auto]).
      * destruct (IH (S n)) as (p & q & -> & [-> | ->]);
          exists (c :: p), q; (split; [reflexivity | auto]).
Qed.

Lemma match_free_take_cells n t :
  match_free t -> match_free (take_cells wide n t).
Proof.
  intros Ht. destruct (take_cells_shape n t) as (p & q & -> & [-> | ->]).
  - exact (@match_free_prefix p q Ht).
  - apply match_free_snoc_other; [exact blank_not_in_escape|].
    exact (@match_free_prefix p q Ht).
Qed.

Lemma match_free_getslice t start stop :
  match_free t -> match_free (getslice wide t start stop).
Proof.
  intros Ht. unfold getslice.
  match goal with |- match_free (if ?b then _ else _) => destruct b end;
    [apply match_free_nil|].
  apply match_free_take_cells, match_free_drop_cells, Ht.
Qed.

End WithWidth.

End WideFacts.

(** ** The slicer *)

Module SliceFacts.
Import WideString SplitFacts WideFacts Ansi.

Lemma even_mod2 i : Nat.even i = true -> (i mod 2 =? 1)%nat = false.
Proof.
  intros H. apply Nat.even_spec in H. destruct H as (k & ->).
  rewrite Nat.mul_comm, Nat.Div0.mod_mul. reflexivity.
Qed.

Lemma odd_mod2 i : Nat.even i = true -> (S i mod 2 =? 1)%nat = true.
Proof.
  intros H. apply Nat.even_spec in H. destruct H as (k & ->).
  replace (S (2 * k)) with (1 + k * 2)%nat by lia.
  rewrite Nat.Div0.mod_add. reflexivity.
Qed.

Section Loop.
Variable wide : char -> bool.
Variables start length : Z.

(** One round of the loop on a text chunk, and on an escape sequence. *)
Lemma slice_loop_text t l i lc pos acc :
  Nat.even i = true ->
  slice_loop wide start length (t :: l) i lc pos acc =
  let pos' := pos + len wide t in
  let acc' := acc ++ emit wide start length lc pos t in
  if length <=? pos' - start then acc' else slice_loop wide start length l (S i) lc pos' acc'.
Proof.
  intros Hi. cbn [slice_loop]. rewrite (even_mod2 _ Hi). unfold emit. cbv zeta.
  destruct (pos + len wide t <=? start); [now rewrite app_nil_r|].
  destruct ((pos <? start) && (start <=? pos + len wide t)); [reflexivity|].
  destruct (length + start <? pos + len wide t); reflexivity.
Qed.

Lemma slice_loop_escape e l i lc pos acc :
  Nat.even i = true ->
  slice_loop wide start length (e :: l) (S i) lc pos acc = slice_loop wide start length l (S (S i)) e pos acc.
Proof. intros Hi. cbn [slice_loop]. now rewrite (odd_mod2 _ Hi). Qed.

Lemma slice_loop_acc l : forall i lc pos acc,
  slice_loop wide start length l i lc pos acc = acc ++ slice_loop wide start length l i lc pos [].
Proof.
  induction l as [|chunk l IH]; intros i lc pos acc; cbn [slice_loop].
  - now rewrite app_nil_r.
  - destruct (i mod 2 =? 1)%nat; [apply IH|].
    cbv zeta.
    repeat match goal with
           | |- context [if ?b then _ else _] => destruct b
           end;
      rewrite ?app_nil_r, ?app_nil_l; try reflexivity;
      rewrite IH; try reflexivity;
      rewrite (IH _ _ _ [_; _]); now rewrite app_assoc.
Qed.

(** *** The shape of the list the loop builds *)

Lemma emit_shape lc pos t :
  match_free t ->
  emit wide start length lc pos t = [] \/
  exists sl, emit wide start length lc pos t = [lc; sl] /\ match_free sl.
Proof.
  intros Ht. unfold emit. cbv zeta.
  destruct (pos + len wide t <=? start); [now left|]. right.
  destruct ((pos <? start) && (start <=? pos + len wide t)).
  { eexists. split; [reflexivity|]. now apply match_free_getslice. }
  destruct (length + start <? pos + len wide t).
  { eexists. split; [reflexivity|]. now apply match_free_getslice. }
  eexists. split; [reflexivity | exact Ht].
Qed.

Lemma colored_colored0 out : colored out -> colored0 out.
Proof.
  destruct 1 as [|e sl out He Hsl Hout]; [now left|].
  right. exists e, sl, out. auto.
Qed.

Lemma emit_colored0 lc pos t out :
  match_free t -> (lc = [] \/ is_escape lc) -> colored out ->
  colored0 (emit wide start length lc pos t ++ out).
Proof.
  intros Ht Hlc Hout.
  destruct (emit_shape lc pos Ht) as [-> | (sl & -> & Hsl)].
  - now apply colored_colored0.
  - right. exists lc, sl, out. auto.
Qed.

Lemma emit_colored lc pos t out :
  match_free t -> is_escape lc -> colored out ->
  colored (emit wide start length lc pos t ++ out).
Proof.
  intros Ht Hlc Hout.
  destruct (emit_shape lc pos Ht) as [-> | (sl & -> & Hsl)].
  - exact Hout.
  - now constructor.
Qed.

Lemma slice_loop_colored l :
  alternating l -> forall i lc pos,
  Nat.even i = true -> is_escape lc ->
  colored (slice_loop wide start length l i lc pos []).
Proof.
  induction 1 as [t Ht | t e l Ht He Hl IH]; intros i lc pos Hi Hlc;
    rewrite slice_loop_text by exact Hi; cbv zeta; rewrite app_nil_l.
  - rewrite <- (app_nil_r (emit _ _ _ _ _ _)).
    destruct (length <=? pos + len wide t - start);
      apply emit_colored; auto; constructor.
  - destruct (length <=? pos + len wide t - start).
    + rewrite <- (app_nil_r (emit _ _ _ _ _ _)).
      apply emit_colored; auto; constructor.
    + rewrite slice_loop_acc, slice_loop_escape by exact Hi.
      apply emit_colored; auto.
Qed.

Lemma slice_loop_colored0 l :
  alternating l -> forall i lc pos,
  Nat.even i = true -> (lc = [] \/ is_escape lc) ->
  colored0 (slice_loop wide start length l i lc pos []).
Proof.
  destruct 1 as [t Ht | t e l Ht He Hl]; intros i lc pos Hi Hlc;
    rewrite slice_loop_text by exact Hi; cbv zeta; rewrite app_nil_l.
  - rewrite <- (app_nil_r (emit _ _ _ _ _ _)).
    destruct (length <=? pos + len wide t - start);
      apply emit_colored0; auto; constructor.
  - destruct (length <=? pos + len wide t - start).
    + rewrite <- (app_nil_r (emit _ _ _ _ _ _)).
      apply emit_colored0; auto; constructor.
    + rewrite slice_loop_acc, slice_loop_escape by exact Hi.
      apply emit_colored0; auto. now apply slice_loop_colored.
Qed.

End Loop.

(** *** Stripping the escape sequences of what the loop built *)

Lemma colored_esc_or_end out : colored out -> esc_or_end (concat out).
Proof.
  destruct 1 as [|e sl out He Hsl Hout]; [now left|].
  destruct (is_escape_head He) as (e' & ->). right. simpl. eauto.
Qed.

Lemma sub_empty_colored out :
  colored out -> Re.sub_empty (concat out) = concat (slices out).
Proof.
  induction 1 as [|e sl out He Hsl Hout IH]; [reflexivity|].
  cbn [concat slices].
  rewrite (sub_empty_app_escape _ He).
  rewrite sub_empty_app_text, IH; [reflexivity|].
  apply no_match_before_of_free; [exact Hsl | now apply colored_esc_or_end].
Qed.

Lemma sub_empty_colored0 out :
  colored0 out -> Re.sub_empty (concat out) = concat (slices out).
Proof.
  intros [-> | (c & sl & out' & -> & [-> | Hc] & Hsl & Hout)].
  - reflexivity.
  - cbn [concat slices app].
    rewrite sub_empty_app_text, (sub_empty_colored Hout); [reflexivity|].
    apply no_match_before_of_free; [exact Hsl | now apply colored_esc_or_end].
  - apply sub_empty_colored. now constructor.
Qed.

(** *** The cells the loop collects *)


Lemma texts_width_cons wide t e l :
  len wide (concat (texts (t :: e :: l)))
  = len wide t + len wide (concat (texts l)).
Proof. cbn [texts concat]. apply len_app. Qed.

Section Cells.
Variable wide : char -> bool.
Hypothesis blank_narrow : wide SPACE = false.
Variables start length : Z.
Hypothesis length_nonneg : 0 <= length.




End Cells.

(** *** Positions in a tokenizer result *)

Lemma mod2_succ_succ i : (S (S i) mod 2 = i mod 2)%nat.
Proof.
  replace (S (S i)) with (i + 1 * 2)%nat by lia.
  apply Nat.Div0.mod_add.
Qed.

Lemma alternating_length l : alternating l -> Nat.odd (List.length l) = true.
Proof.
  induction 1 as [t Ht | t e l Ht He Hl IH]; [reflexivity|].
  cbn [List.length]. now rewrite Nat.odd_succ_succ.
Qed.

Lemma escape_not_free m : is_escape m -> ~ match_free m.
Proof.
  intros He Hf. apply (Hf [] m []); [now rewrite app_nil_r | exact He].
Qed.

Lemma alternating_nth l :
  alternating l -> forall i chunk, nth_error l i = Some chunk ->
  if (i mod 2 =? 1)%nat then is_escape chunk else match_free chunk.
Proof.
  induction 1 as [t Ht | t e l Ht He Hl IH]; intros i chunk Hn.
  - destruct i as [|i]; simpl in Hn.
    + injection Hn as <-. exact Ht.
    + destruct i; discriminate.
  - destruct i as [|[|i]]; cbn [nth_error] in Hn.
    + injection Hn as <-. exact Ht.
    + injection Hn as <-. exact He.
    + rewrite mod2_succ_succ. now apply IH.
Qed.

End SliceFacts.

(** ** The resolver *)

Module ResolveFacts.
Import Ansi.

Lemma py_not_nonzero x : x <> 0 -> py_not x = 0.
Proof. unfold py_not. intros H. destruct (Z.eqb_spec x 0); [contradiction | reflexivity]. Qed.

(** The generator yields a chunk as text only if it is empty or does not
    begin with the introducer byte. *)
Lemma yielded_text E l : forall fg bg attr st x,
  In (Text x) (yielded (fst (resolve_chunks E l fg bg attr st))) ->
  hd_error x <> Some ESC.
Proof.
  induction l as [|chunk l IH]; intros fg bg attr st x Hin; [contradiction|].
  cbn [resolve_chunks] in Hin.
  destruct chunk as [|c0 chunk'].
  - destruct Hin as [Hin | Hin]; [injection Hin as <-; discriminate | eauto].
  - destruct (N.eqb_spec c0 ESC) as [-> | Hne].
    + destruct (negb (last (ESC :: chunk') 0 =? LOWER_M)%N); [eauto|].
      destruct (attr_args_of (ESC :: chunk')); [|eauto].
      destruct (map_int (split_semicolon s)); [|contradiction].
      destruct (parse_ansi_code E a fg bg attr st) as [[[[fg' bg'] attr']|e] st'];
        [|contradiction].
      destruct Hin as [Hin | Hin]; [discriminate | eauto].
    + destruct Hin as [Hin | Hin]; [|eauto].
      injection Hin as <-. simpl. congruence.
Qed.

Lemma resolve_skip E tok chunks fg bg attr st :
  hd_error tok = Some ESC -> last tok 0%N <> LOWER_M ->
  resolve_chunks E (tok :: chunks) fg bg attr st
  = resolve_chunks E chunks fg bg attr st.
Proof.
  intros Hhd Hlast. destruct tok as [|c0 tok']; [discriminate|].
  injection Hhd as ->. cbn [resolve_chunks]. rewrite N.eqb_refl.
  destruct (N.eqb_spec (last (ESC :: tok') 0%N) LOWER_M); [contradiction|].
  reflexivity.
Qed.

(** *** Tokens with written-out parameters *)

Lemma digit_not_space c : Re.is_digit c = true -> is_space c = false.
Proof.
  unfold Re.is_digit, is_space. intros H.
  apply Bool.andb_true_iff in H. destruct H as [H1 H2].
  apply N.leb_le in H1. apply N.leb_le in H2.
  apply Bool.orb_false_iff. split.
  - apply N.eqb_neq. lia.
  - apply Bool.andb_false_iff. right. apply N.leb_gt. lia.
Qed.

Lemma digit_not_semicolon c : Re.is_digit c = true -> (c =? SEMICOLON)%N = false.
Proof.
  intros H. apply N.eqb_neq. intros ->. discriminate H.
Qed.

Lemma digit_not_newline c : Re.is_digit c = true -> (c =? NEWLINE)%N = false.
Proof.
  intros H. apply N.eqb_neq. intros ->. discriminate H.
Qed.

Lemma lstrip_digits p : all_digits p -> lstrip p = p.
Proof.
  destruct p as [|c p]; [reflexivity|]. unfold all_digits. cbn [forallb lstrip].
  intros H. apply Bool.andb_true_iff in H. destruct H as [H _].
  now rewrite (digit_not_space _ H).
Qed.

Lemma all_digits_rev p : all_digits p -> all_digits (rev p).
Proof.
  unfold all_digits. rewrite !forallb_forall. intros H c Hc.
  apply H. now apply in_rev.
Qed.

Lemma strip_digits p : all_digits p -> strip p = p.
Proof.
  intros H. unfold strip. rewrite (lstrip_digits H).
  rewrite (lstrip_digits (all_digits_rev H)). apply rev_involutive.
Qed.

Lemma int_digit_string p : digit_string p -> int p = Ok (value p).
Proof.
  intros [Hne H]. unfold int. rewrite (strip_digits H).
  destruct p as [|c p]; [congruence|].
  pose proof H as H'. unfold all_digits in H'. cbn [forallb] in H'.
  apply Bool.andb_true_iff in H'. destruct H' as [Hc _].
  assert (E1 : (c =? 45)%N = false) by (apply N.eqb_neq; intros ->; discriminate).
  assert (E2 : (c =? 43)%N = false) by (apply N.eqb_neq; intros ->; discriminate).
  rewrite E1, E2. unfold int_digits. unfold all_digits in H. now rewrite H.
Qed.

Lemma map_int_digit_strings params :
  Forall digit_string params -> map_int params = Ok (map value params).
Proof.
  induction 1 as [|p params Hp _ IH]; [reflexivity|].
  cbn [map_int map]. now rewrite (int_digit_string Hp), IH.
Qed.

Lemma split_semicolon_digits p x :
  all_digits p ->
  split_semicolon (p ++ SEMICOLON :: x) = p :: split_semicolon x.
Proof.
  unfold all_digits. induction p as [|c p IH]; intros H.
  - reflexivity.
  - cbn [forallb] in H. apply Bool.andb_true_iff in H. destruct H as [Hc Hp].
    cbn [app split_semicolon]. rewrite (digit_not_semicolon _ Hc).
    now rewrite (IH Hp).
Qed.

Lemma split_semicolon_one p : all_digits p -> split_semicolon p = [p].
Proof.
  unfold all_digits. induction p as [|c p IH]; intros H.
  - reflexivity.
  - cbn [forallb] in H. apply Bool.andb_true_iff in H. destruct H as [Hc Hp].
    cbn [split_semicolon]. rewrite (digit_not_semicolon _ Hc).
    now rewrite (IH Hp).
Qed.

Lemma split_join params :
  params <> [] -> Forall all_digits params ->
  split_semicolon (join_semicolon params) = params.
Proof.
  intros Hne H. induction H as [|p params Hp Hps IH]; [congruence|].
  destruct params as [|q params].
  - now apply split_semicolon_one.
  - change (join_semicolon (p :: q :: params))
      with (p ++ SEMICOLON :: join_semicolon (q :: params)).
    rewrite (split_semicolon_digits _ Hp). f_equal. apply IH. discriminate.
Qed.

Lemma no_newline_join params :
  Forall all_digits params ->
  forallb (fun c : char => negb (c =? NEWLINE)%N) (join_semicolon params) = true.
Proof.
  induction 1 as [|p params Hp Hps IH]; [reflexivity|].
  assert (Hd : forallb (fun c : char => negb (c =? NEWLINE)%N) p = true).
  { apply forallb_forall. intros c Hc. unfold all_digits in Hp.
    rewrite forallb_forall in Hp. now rewrite (digit_not_newline _ (Hp c Hc)). }
  destruct params as [|q params]; [exact Hd|].
  change (join_semicolon (p :: q :: params))
    with (p ++ SEMICOLON :: join_semicolon (q :: params)).
  rewrite forallb_app. apply Bool.andb_true_iff. split; [exact Hd|].
  cbn [forallb]. exact IH.
Qed.

Lemma forallb_rev (f : char -> bool) (l : str) :
  forallb f l = true -> forallb f (rev l) = true.
Proof.
  rewrite !forallb_forall. intros H c Hc. apply H. now apply in_rev.
Qed.

Lemma attr_args_of_sgr params :
  Forall all_digits params ->
  attr_args_of (sgr params) = Some (join_semicolon params).
Proof.
  intros H. unfold sgr, attr_args_of.
  change (negb (ESC =? NEWLINE)%N && (LBRACKET =? LBRACKET)%N)%bool with true.
  cbv iota. rewrite rev_app_distr. cbn [rev app].
  change (negb (LOWER_M =? NEWLINE)%N) with true. cbn [andb].
  match goal with
  | |- context [forallb ?f ?l] =>
      assert (Hf : forallb f l = true)
        by exact (forallb_rev _ _ (no_newline_join H));
      rewrite Hf
  end.
  now rewrite rev_involutive.
Qed.

Lemma last_sgr params : last (sgr params) 0%N = LOWER_M.
Proof.
  unfold sgr.
  change (ESC :: LBRACKET :: join_semicolon params ++ [LOWER_M])
    with ((ESC :: LBRACKET :: join_semicolon params) ++ [LOWER_M]).
  apply last_last.
Qed.

(** For an SGR token the loop parses the parameters: a parameter that does
    not parse ends the generator, otherwise [parse_ansi_code] decides. *)
Lemma resolve_sgr E params chunks fg bg attr st :
  params <> [] -> Forall all_digits params ->
  resolve_chunks E (sgr params :: chunks) fg bg attr st =
  match map_int params with
  | Raise e => ({| yielded := []; raised := Some e |}, st)
  | Ok code => resolved E chunks (parse_ansi_code E code fg bg attr st)
  end.
Proof.
  intros Hne H. cbn [resolve_chunks].
  change (sgr params) with (ESC :: LBRACKET :: join_semicolon params ++ [LOWER_M]) at 1.
  cbv iota. rewrite N.eqb_refl.
  change (ESC :: LBRACKET :: join_semicolon params ++ [LOWER_M]) with (sgr params).
  rewrite last_sgr, N.eqb_refl. cbn [negb].
  rewrite (attr_args_of_sgr H), (split_join Hne H).
  destruct (map_int params) as [code|e]; [|reflexivity].
  unfold resolved.
  destruct (parse_ansi_code E code fg bg attr st) as [[[[fg' bg'] attr']|e] st'];
    reflexivity.
Qed.

Lemma digit_string_all p : digit_string p -> all_digits p.
Proof. now intros [_ H]. Qed.

Lemma Forall_digit_string_all params :
  Forall digit_string params -> Forall all_digits params.
Proof. intros H. eapply Forall_impl; [|exact H]. exact digit_string_all. Qed.

(** Such a token is a word of [ansi_re], also when its first parameter is
    empty. *)
Lemma params_word_digits b p w :
  all_digits p -> params_word false w -> (p <> [] \/ b = false) ->
  params_word b (p ++ w).
Proof.
  unfold all_digits. revert b. induction p as [|c p IH]; intros b H Hw Hb.
  - destruct Hb as [Hb | ->]; [congruence | exact Hw].
  - cbn [forallb] in H. apply Bool.andb_true_iff in H. destruct H as [Hc Hp].
    cbn [app]. apply pw_digit; [exact Hc|]. apply IH; auto.
Qed.

Lemma params_word_join b p rest :
  all_digits p -> (p <> [] \/ b = false) -> Forall digit_string rest ->
  params_word b (join_semicolon (p :: rest) ++ [LOWER_M]).
Proof.
  intros Hp Hb Hrest. revert b p Hp Hb.
  induction Hrest as [|q rest Hq _ IH]; intros b p Hp Hb.
  - cbn [join_semicolon]. apply params_word_digits; auto.
    now apply pw_letter.
  - change (join_semicolon (p :: q :: rest))
      with (p ++ SEMICOLON :: join_semicolon (q :: rest)).
    rewrite <- app_assoc. apply params_word_digits; auto.
    cbn [app]. apply pw_semi. apply IH; [exact (digit_string_all Hq)|].
    left. now destruct Hq.
Qed.

Lemma is_escape_sgr p rest :
  all_digits p -> Forall digit_string rest -> is_escape (sgr (p :: rest)).
Proof.
  intros Hp Hrest. apply ReFacts.is_escape_iff.
  exists (join_semicolon (p :: rest) ++ [LOWER_M]). split; [reflexivity|].
  apply params_word_join; auto.
Qed.

End ResolveFacts.

(** ** Slices with nothing to show *)

Module EmptyFacts.
Import WideString SplitFacts WideFacts SliceFacts Ansi.

Section Window.
Variable wide : char -> bool.
Variables start length : Z.

Lemma emit_before lc pos t :
  pos + len wide t <= start -> emit wide start length lc pos t = [].
Proof.
  intros H. unfold emit. cbv zeta.
  destruct (Z.leb_spec (pos + len wide t) start); [reflexivity | lia].
Qed.


End Window.

Section ZeroLength.
Variable wide : char -> bool.
Variable start : Z.




End ZeroLength.

End EmptyFacts.

(** ** The colour in front of a slice *)

Module LeadFacts.
Import WideString SplitFacts WideFacts SliceFacts EmptyFacts Ansi.

Section Lead.
Variable wide : char -> bool.
Variables start length : Z.
Hypothesis length_nonneg : 0 <= length.

Lemma len_zero t : len wide t <= 0 -> t = [].
Proof.
  destruct t as [|c t]; [reflexivity|]. cbn [len].
  pose proof (width_pos wide c). pose proof (len_nonneg wide t). lia.
Qed.

Lemma take_cells_all t : forall n,
  len wide t <= Z.of_nat n -> take_cells wide n t = t.
Proof.
  induction t as [|c t IH]; intros n Hn; [reflexivity|].
  cbn [len] in Hn. unfold width in Hn. pose proof (len_nonneg wide t) as Ht.
  destruct n as [|[|n]]; cbn [take_cells].
  - destruct (wide c); lia.
  - destruct (wide c); [lia|]. now rewrite (len_zero t) by lia.
  - destruct (wide c); f_equal; apply IH; lia.
Qed.

(** The chunks before the one that holds [start] add nothing; behind them
    the loop stands at the next text chunk with the escape sequence [e] as
    its [last_color]. *)
Lemma slice_loop_skip e rest n : forall pre i lc pos acc,
  List.length pre = S (2 * n) ->
  Nat.even i = true ->
  pos + len wide (concat (texts pre)) <= start ->
  (pos + len wide (concat (texts pre)) < start \/ 0 < length) ->
  exists j,
    Nat.even j = true /\
    slice_loop wide start length (pre ++ e :: rest) i lc pos acc
    = slice_loop wide start length rest j e
        (pos + len wide (concat (texts pre))) acc.
Proof.
  induction n as [|n IH]; intros pre i lc pos acc Hlen Hi Hle Hlt.
  - destruct pre as [|t [|]]; try discriminate.
    cbn [texts concat] in *. rewrite app_nil_r in *.
    exists (S (S i)). split; [now rewrite Nat.even_succ_succ|].
    cbn [app]. rewrite slice_loop_text by exact Hi. cbv zeta.
    rewrite emit_before by exact Hle. rewrite app_nil_r.
    destruct (Z.leb_spec length (pos + len wide t - start)); [lia|].
    now apply slice_loop_escape.
  - destruct pre as [|t [|e' pre]]; try discriminate.
    cbn [List.length] in Hlen.
    rewrite texts_width_cons in *.
    pose proof (len_nonneg wide (concat (texts pre))) as Hnp.
    pose proof (len_nonneg wide t) as Hnt.
    assert (Hpre : List.length pre = S (2 * n)) by lia.
    destruct (IH pre (S (S i)) e' (pos + len wide t) acc Hpre) as (j & Hj & Ej);
      [now rewrite Nat.even_succ_succ | lia | lia |].
    exists j. split; [exact Hj|].
    cbn [app]. rewrite slice_loop_text by exact Hi. cbv zeta.
    rewrite emit_before by lia. rewrite app_nil_r.
    destruct (Z.leb_spec length (pos + len wide t - start)); [lia|].
    rewrite slice_loop_escape by exact Hi.
    rewrite Ej. f_equal. lia.
Qed.

(** The chunk that holds [start] is cut from [start - pos] on, behind the
    colour. *)
Lemma emit_at lc pos t :
  pos <= start -> start < pos + len wide t ->
  (pos < start \/ 0 < length) ->
  emit wide start length lc pos t
  = [lc; getslice wide t (Some (start - pos)) (start - pos + length)].
Proof.
  intros H1 H2 H3. unfold emit. cbv zeta.
  destruct (Z.leb_spec (pos + len wide t) start); [lia|].
  destruct (Z.ltb_spec pos start) as [H4 | H4];
    destruct (Z.leb_spec start (pos + len wide t)); cbn [andb]; try lia;
    [reflexivity|].
  assert (pos = start) by lia. subst pos. rewrite Z.sub_diag.
  destruct (Z.ltb_spec (length + start) (start + len wide t)); [reflexivity|].
  rewrite getslice_inside by lia. cbv zeta. cbn [Z.ltb Z.compare].
  rewrite drop_cells_0. now rewrite take_cells_all by lia.
Qed.

End Lead.

(** *** The width table matters only on the characters of the string *)

Section Ext.
Variables w1 w2 : char -> bool.

Lemma len_ext s :
  (forall c, In c s -> w1 c = w2 c) -> len w1 s = len w2 s.
Proof.
  induction s as [|c s IH]; intros H; [reflexivity|].
  cbn [len]. unfold width. rewrite (H c) by now left.
  rewrite IH; [reflexivity|]. intros c' Hc'. apply H. now right.
Qed.

Lemma drop_cells_ext s : forall n,
  (forall c, In c s -> w1 c = w2 c) -> drop_cells w1 n s = drop_cells w2 n s.
Proof.
  induction s as [|c s IH]; intros n H; [reflexivity|].
  assert (Hs : forall c', In c' s -> w1 c' = w2 c') by (intros; apply H; now right).
  destruct n as [|[|n]]; cbn [drop_cells]; rewrite ?(H c) by now left.
  - reflexivity.
  - reflexivity.
  - destruct (w2 c); now apply IH.
Qed.

Lemma take_cells_ext s : forall n,
  (forall c, In c s -> w1 c = w2 c) -> take_cells w1 n s = take_cells w2 n s.
Proof.
  induction s as [|c s IH]; intros n H; [reflexivity|].
  assert (Hs : forall c', In c' s -> w1 c' = w2 c') by (intros; apply H; now right).
  destruct n as [|[|n]]; cbn [take_cells]; rewrite ?(H c) by now left.
  - reflexivity.
  - reflexivity.
  - destruct (w2 c); f_equal; now apply IH.
Qed.

Lemma in_drop_cells w s : forall n c,
  In c (drop_cells w n s) -> c = SPACE \/ In c s.
Proof.
  induction s as [|c0 s IH]; intros n c Hin; [contradiction|].
  destruct n as [|[|n]]; cbn [drop_cells] in Hin.
  - now right.
  - destruct (w c0).
    + destruct Hin as [<- | Hin]; [now left | right; now right].
    + right; now right.
  - destruct (w c0); apply IH in Hin; destruct Hin; auto; right; now right.
Qed.

Lemma getslice_ext t a stop :
  w1 SPACE = w2 SPACE -> (forall c, In c t -> w1 c = w2 c) ->
  getslice w1 t a stop = getslice w2 t a stop.
Proof.
  intros Hb H. unfold getslice. cbv zeta. rewrite (len_ext t H).
  match goal with |- (if ?b then _ else _) = _ => destruct b end; [reflexivity|].
  rewrite (drop_cells_ext t _ H). apply take_cells_ext.
  intros c Hc. apply in_drop_cells in Hc. destruct Hc as [-> | Hc]; auto.
Qed.

Lemma slice_loop_ext start length l : forall i lc pos acc,
  w1 SPACE = w2 SPACE -> (forall c, In c (concat l) -> w1 c = w2 c) ->
  slice_loop w1 start length l i lc pos acc
  = slice_loop w2 start length l i lc pos acc.
Proof.
  induction l as [|t l IH]; intros i lc pos acc Hb H; [reflexivity|].
  assert (Ht : forall c, In c t -> w1 c = w2 c).
  { intros c Hc. apply H. cbn [concat]. apply in_or_app. now left. }
  assert (Hl : forall c, In c (concat l) -> w1 c = w2 c).
  { intros c Hc. apply H. cbn [concat]. apply in_or_app. now right. }
  cbn [slice_loop]. cbv zeta.
  rewrite (len_ext t Ht), !(getslice_ext t _ _ Hb Ht).
  destruct (i mod 2 =? 1)%nat; [now apply IH|].
  repeat match goal with
         | |- (if ?b then _ else _) = _ => destruct b
         end; try reflexivity; now apply IH.
Qed.

Lemma char_slice_ext s start length :
  w1 SPACE = w2 SPACE -> (forall c, In c s -> w1 c = w2 c) ->
  char_slice w1 s start length = char_slice w2 s start length.
Proof.
  intros Hb H. unfold char_slice, split_ansi_from_text. f_equal.
  apply slice_loop_ext; [exact Hb|]. now rewrite concat_split.
Qed.

End Ext.

End LeadFacts.

(** ** The doctests of ansi.py *)

Module Doctests.
Import Ansi.

Example split_test_string :
  split_ansi_from_text test_string
  = [of_string "abcde"; esc "[30m"; of_string "foo"; esc "[31m";
     of_string "bar"; esc "[0m"; of_string "normal"].
Proof. reflexivity. Qed.

Example char_len_X :
  char_len cjk_wide (esc "[0;30;40m" ++ of_string "X" ++ esc "[0m") = 1.
Proof. reflexivity. Qed.

Example char_len_XY :
  char_len cjk_wide (esc "[0;30;40m" ++ of_string "XY" ++ esc "[0m") = 2.
Proof. reflexivity. Qed.

Example char_len_X_Y :
  char_len cjk_wide
    (esc "[0;30;40m" ++ of_string "X" ++ esc "[0m" ++ of_string "Y") = 2.
Proof. reflexivity. Qed.

Example char_len_hello : char_len cjk_wide (of_string "hello") = 5.
Proof. reflexivity. Qed.

Example char_len_empty : char_len cjk_wide [] = 0.
Proof. reflexivity. Qed.

Example char_slice_1_3 : char_slice cjk_wide test_string 1 3 = of_string "bcd".
Proof. reflexivity. Qed.

Example char_slice_0_8 :
  char_slice cjk_wide test_string 0 8
  = of_string "abcde" ++ esc "[30m" ++ of_string "foo".
Proof. reflexivity. Qed.

Example char_slice_4_4 :
  char_slice cjk_wide test_string 4 4
  = of_string "e" ++ esc "[30m" ++ of_string "foo".
Proof. reflexivity. Qed.

Example char_slice_11_100 :
  char_slice cjk_wide test_string 11 100 = esc "[0m" ++ of_string "normal".
Proof. reflexivity. Qed.

Example char_slice_9_100 :
  char_slice cjk_wide test_string 9 100
  = esc "[31m" ++ of_string "ar" ++ esc "[0m" ++ of_string "normal".
Proof. reflexivity. Qed.

Example char_slice_9_4 :
  char_slice cjk_wide test_string 9 4
  = esc "[31m" ++ of_string "ar" ++ esc "[0m" ++ of_string "no".
Proof. reflexivity. Qed.

End Doctests.

(** * The claims *)

Import Ansi ReFacts SplitFacts SliceFacts WideFacts ResolveFacts EmptyFacts LeadFacts.

(** C1.  Tokenizer round trip: for every string, joining in order all the
    elements that [split_ansi_from_text] returns, text chunks and escape
    sequences alike, gives the string back. *)
Theorem split_ansi_from_text_roundtrip (s : str) :
  concat (split_ansi_from_text s) = s.
Proof. unfold split_ansi_from_text. apply concat_split. Qed.

(** C2.  Attribute toggling.  What [parse_attr] does: an enable code sets
    its bit and leaves the rest of the state alone, but the disable code that
    goes with it computes [attr & (not bit)], and for a bit that is not zero
    [not bit] is [False]: the whole mask becomes 0, whatever it was. *)
Theorem parse_attr_disable_clears_mask (E : Curses.env)
    (en dis bit fg bg attr : Z) :
  In (en, dis, bit) (toggles E) -> bit <> 0 ->
  parse_attr E en fg bg attr = (fg, bg, Z.lor attr bit) /\
  forall attr', parse_attr E dis fg bg attr' = (fg, bg, 0).
Proof.
  intros Hin Hbit. unfold toggles in Hin.
  repeat (destruct Hin as [Hin | Hin];
          [injection Hin as <- <- <-; split; [reflexivity|];
           intros attr'; unfold parse_attr; cbn [Z.eqb Pos.eqb];
           rewrite (py_not_nonzero Hbit), Z.land_0_r; reflexivity |]).
  contradiction.
Qed.

(** With underline on, enabling bold and disabling it again loses the
    underline. *)
Lemma parse_attr_disable_clears_mask_witness :
  parse_attr Curses.ncurses 1 (-1) (-1) 131072 = (-1, -1, Z.lor 131072 2097152) /\
  forall attr', parse_attr Curses.ncurses 22 (-1) (-1) attr' = (-1, -1, 0).
Proof.
  apply (@parse_attr_disable_clears_mask Curses.ncurses 1 22 2097152).
  - left. reflexivity.
  - discriminate.
Defined.

(** C3.  Indexed extended colour.  What the code does for the token
    ['\x1b[38;5;Nm']: [parse_color] passes the selector [code[0]], which is
    5, to [parse_indexed_color], so [fg] becomes 5 for every [N]; [bg] and
    [attr] are unchanged (for 48: [bg] becomes 5).  Parsing
    ['\x1b[38;5;196m'] yields [fg == 5]. *)
Theorem indexed_color_is_the_selector (E : Curses.env)
    (n : str) (chunks : list str) (fg bg attr : Z) (st : Color.registry) :
  digit_string n ->
  resolve_chunks E (sgr [of_string "38"; of_string "5"; n] :: chunks) fg bg attr st
  = yield (State 5 bg attr) (resolve_chunks E chunks 5 bg attr st) /\
  resolve_chunks E (sgr [of_string "48"; of_string "5"; n] :: chunks) fg bg attr st
  = yield (State fg 5 attr) (resolve_chunks E chunks fg 5 attr st) /\
  text_with_fg_bg_attr E (esc "[38;5;196m") st
  = ({| yielded := [Text []; State 5 (-1) 0; Text []]; raised := None |}, st).
Proof.
  intros Hn.
  assert (H38 : Forall digit_string [of_string "38"; of_string "5"; n])
    by solve_digits.
  assert (H48 : Forall digit_string [of_string "48"; of_string "5"; n])
    by solve_digits.
  split; [|split].
  - rewrite resolve_sgr; [|discriminate | exact (Forall_digit_string_all H38)].
    rewrite (map_int_digit_strings H38). reflexivity.
  - rewrite resolve_sgr; [|discriminate | exact (Forall_digit_string_all H48)].
    rewrite (map_int_digit_strings H48). reflexivity.
  - reflexivity.
Qed.

Lemma indexed_color_is_the_selector_witness :
  resolve_chunks Curses.ncurses
    [sgr [of_string "38"; of_string "5"; of_string "196"]]
    (-1) (-1) 0 Color.registry0
  = yield (State 5 (-1) 0)
      (resolve_chunks Curses.ncurses [] 5 (-1) 0 Color.registry0).
Proof.
  assert (Hn : digit_string (of_string "196"))
    by (split; [discriminate | reflexivity]).
  exact (proj1 (@indexed_color_is_the_selector Curses.ncurses (of_string "196")
                  [] (-1) (-1) 0 Color.registry0 Hn)).
Defined.



(** C5.  Slice self-containment.  Let the slice begin in the text chunk [t]
    of [s], at or behind its first cell, and let [e] be the escape sequence in
    front of [t], the last one seen: then the slice begins with [e], followed
    by [t] cut from [start] on, although [e] lies before [start].  (With
    [length == 0] this needs [start] inside [t], not at its first cell.)  And
    [char_slice("abcde\x1b[30mfoo\x1b[31mbar\x1b[0mnormal", 5, 6)] is
    ["\x1b[30mfoo\x1b[31mbar"], for a width table that has the ASCII
    characters narrow. *)
Theorem char_slice_leads_with_last_escape (wide : char -> bool) :
  (forall s start length pre e t post,
     split_ansi_from_text s = pre ++ e :: t :: post ->
     Nat.odd (List.length pre) = true ->
     0 <= length ->
     WideString.len wide (concat (texts pre)) <= start ->
     start < WideString.len wide (concat (texts pre)) + WideString.len wide t ->
     (WideString.len wide (concat (texts pre)) < start \/ 0 < length) ->
     exists tail,
       char_slice wide s start length
       = e ++ WideString.getslice wide t
                (Some (start - WideString.len wide (concat (texts pre))))
                (start - WideString.len wide (concat (texts pre)) + length)
           ++ tail) /\
  ((forall c, (c < 128)%N -> wide c = false) ->
   char_slice wide test_string 5 6
   = esc "[30m" ++ of_string "foo" ++ esc "[31m" ++ of_string "bar").
Proof.
  split.
  - intros s start length pre e t post Hsplit Hodd Hlen Hle Hlt Hor.
    apply Nat.odd_spec in Hodd. destruct Hodd as (n & Hn).
    unfold char_slice. rewrite Hsplit.
    destruct (@slice_loop_skip wide start length Hlen e (t :: post) n pre
                0%nat [] 0 [])
      as (j & Hj & ->); [lia | reflexivity | lia | lia |].
    rewrite slice_loop_text by exact Hj. cbv zeta. rewrite app_nil_l.
    rewrite Z.add_0_l.
    rewrite (@emit_at wide start length Hlen) by assumption.
    destruct (length <=? _).
    + exists []. cbn [concat]. now rewrite !app_nil_r.
    + rewrite slice_loop_acc. eexists. rewrite concat_app. cbn [concat].
      rewrite app_nil_r, <- app_assoc. reflexivity.
  - intros Hascii.
    rewrite (@char_slice_ext wide (fun _ => false)).
    + vm_compute. reflexivity.
    + apply Hascii. reflexivity.
    + intros c Hc. apply Hascii.
      assert (H : forallb (fun c => (c <? 128)%N) test_string = true)
        by reflexivity.
      rewrite forallb_forall in H. apply N.ltb_lt. now apply H.
Qed.

Lemma char_slice_leads_with_last_escape_witness :
  (exists tail,
     char_slice cjk_wide test_string 6 3
     = esc "[30m" ++ WideString.getslice cjk_wide (of_string "foo")
                       (Some (6 - 5)) (6 - 5 + 3) ++ tail) /\
  char_slice cjk_wide test_string 5 6
  = esc "[30m" ++ of_string "foo" ++ esc "[31m" ++ of_string "bar".
Proof.
  split.
  - apply (proj1 (char_slice_leads_with_last_escape cjk_wide)
             test_string 6 3 [of_string "abcde"] (esc "[30m") (of_string "foo")
             [esc "[31m"; of_string "bar"; esc "[0m"; of_string "normal"]).
    + reflexivity.
    + reflexivity.
    + lia.
    + vm_compute. discriminate.
    + reflexivity.
    + left. reflexivity.
  - apply (proj2 (char_slice_leads_with_last_escape cjk_wide)).
    intros c Hc. unfold cjk_wide.
    apply Bool.andb_false_iff. left. apply N.leb_gt. lia.
Defined.

(** C6.  Reset.  A token whose first parameter is written out and is 0
    resets the state to [(-1, -1, 0)] whatever it was.  A token whose first
    parameter is empty, ['\x1b[m'] among them, does not: it is a word of
    [ansi_re], but [int('')] raises [ValueError] and the generator ends
    there. *)
Theorem reset_zero_and_empty (E : Curses.env)
    (rest chunks : list str) (fg bg attr : Z) (st : Color.registry) :
  Forall digit_string rest ->
  (forall p, digit_string p -> value p = 0 ->
     resolve_chunks E (sgr (p :: rest) :: chunks) fg bg attr st
     = yield (State (-1) (-1) 0) (resolve_chunks E chunks (-1) (-1) 0 st)) /\
  is_escape (sgr ([] :: rest)) /\
  resolve_chunks E (sgr ([] :: rest) :: chunks) fg bg attr st
  = ({| yielded := []; raised := Some ValueError |}, st) /\
  text_with_fg_bg_attr E (esc "[m") st
  = ({| yielded := [Text []]; raised := Some ValueError |}, st).
Proof.
  intros Hrest. pose proof (Forall_digit_string_all Hrest) as Hall.
  split; [|split; [|split]].
  - intros p Hp Hv.
    rewrite resolve_sgr; [|discriminate | constructor; [exact (digit_string_all Hp) | exact Hall]].
    rewrite map_int_digit_strings by (constructor; assumption).
    cbn [map]. rewrite Hv. reflexivity.
  - apply is_escape_sgr; [reflexivity | exact Hrest].
  - rewrite resolve_sgr; [|discriminate | constructor; [reflexivity | exact Hall]].
    reflexivity.
  - reflexivity.
Qed.

Lemma reset_zero_and_empty_witness :
  resolve_chunks Curses.ncurses [sgr [of_string "0"; of_string "31"]]
    3 4 131072 Color.registry0
  = yield (State (-1) (-1) 0)
      (resolve_chunks Curses.ncurses [] (-1) (-1) 0 Color.registry0) /\
  resolve_chunks Curses.ncurses [sgr [[]; of_string "31"]]
    3 4 131072 Color.registry0
  = ({| yielded := []; raised := Some ValueError |}, Color.registry0).
Proof.
  assert (H : Forall digit_string [of_string "31"]) by solve_digits.
  assert (H0 : digit_string (of_string "0"))
    by (split; [discriminate | reflexivity]).
  pose proof (@reset_zero_and_empty Curses.ncurses [of_string "31"] []
                3 4 131072 Color.registry0 H) as (Hzero & _ & Hempty & _).
  split.
  - exact (Hzero (of_string "0") H0 eq_refl).
  - exact Hempty.
Defined.




(** C8.  Truecolor extended colour: for the token ['\x1b[38;2;R;G;Bm'] the
    resolver calls [get_color_id] with the numbers [(R, G, B)] and what it
    returns becomes [fg], with [bg] and [attr] as they were; the registry is
    left as [get_color_id] leaves it, and an exception of [get_color_id] ends
    the generator.  If [get_color_id] returns 42 for [(255, 0, 0)], parsing
    ['\x1b[38;2;255;0;0m'] yields [fg == 42]. *)
Theorem truecolor_delegates (E : Curses.env)
    (R G B : str) (chunks : list str) (fg bg attr : Z) (st : Color.registry) :
  digit_string R -> digit_string G -> digit_string B ->
  resolve_chunks E (sgr [of_string "38"; of_string "2"; R; G; B] :: chunks)
    fg bg attr st
  = match Color.get_color_id E (value R) (value G) (value B) st with
    | (Ok colid, st') =>
        yield (State colid bg attr) (resolve_chunks E chunks colid bg attr st')
    | (Raise e, st') => ({| yielded := []; raised := Some e |}, st')
    end /\
  (fst (Color.get_color_id E 255 0 0 st) = Ok 42 ->
   yielded (fst (text_with_fg_bg_attr E (esc "[38;2;255;0;0m") st))
   = [Text []; State 42 (-1) 0; Text []]).
Proof.
  intros HR HG HB.
  assert (H38 : digit_string (of_string "38")) by (split; [discriminate | reflexivity]).
  assert (H2 : digit_string (of_string "2")) by (split; [discriminate | reflexivity]).
  assert (Hgen : forall R G B chunks fg bg attr,
    digit_string R -> digit_string G -> digit_string B ->
    resolve_chunks E (sgr [of_string "38"; of_string "2"; R; G; B] :: chunks)
      fg bg attr st
    = match Color.get_color_id E (value R) (value G) (value B) st with
      | (Ok colid, st') =>
          yield (State colid bg attr) (resolve_chunks E chunks colid bg attr st')
      | (Raise e, st') => ({| yielded := []; raised := Some e |}, st')
      end).
  { clear. intros R G B chunks fg bg attr HR HG HB.
    assert (Hd : Forall digit_string [of_string "38"; of_string "2"; R; G; B])
      by solve_digits.
    rewrite resolve_sgr; [|discriminate | exact (Forall_digit_string_all Hd)].
    rewrite (map_int_digit_strings Hd). cbn [map].
    change (value (of_string "38")) with 38.
    change (value (of_string "2")) with 2.
    unfold parse_ansi_code, parse_color, parse_rgb, bind, ret, resolved.
    cbn [Z.eqb Pos.eqb].
    destruct (Color.get_color_id E (value R) (value G) (value B) st)
      as [[colid|e] st']; reflexivity. }
  split; [now apply Hgen|].
  intros H42. unfold text_with_fg_bg_attr.
  change (split_ansi_from_text (esc "[38;2;255;0;0m"))
    with ([] :: sgr [of_string "38"; of_string "2"; of_string "255";
                     of_string "0"; of_string "0"] :: [[]]).
  change (resolve_chunks E
            ([] :: sgr [of_string "38"; of_string "2"; of_string "255";
                        of_string "0"; of_string "0"] :: [[]]) (-1) (-1) 0 st)
    with (yield (Text [])
            (resolve_chunks E
               (sgr [of_string "38"; of_string "2"; of_string "255";
                     of_string "0"; of_string "0"] :: [[]]) (-1) (-1) 0 st)).
  rewrite Hgen by (split; [discriminate | reflexivity]).
  change (value (of_string "255")) with 255.
  change (value (of_string "0")) with 0.
  destruct (Color.get_color_id E 255 0 0 st) as [[colid|e] st'];
    simpl in H42; [|discriminate].
  injection H42 as ->. reflexivity.
Qed.

Lemma truecolor_delegates_witness :
  yielded (fst (text_with_fg_bg_attr Curses.ncurses (esc "[38;2;255;0;0m")
                  {| Color.Colors := None; Color.NextColorIndex := 18;
                     Color.init_color_calls := [] |}))
  = [Text []; State 42 (-1) 0; Text []].
Proof.
  assert (H255 : digit_string (of_string "255"))
    by (split; [discriminate | reflexivity]).
  assert (H0 : digit_string (of_string "0"))
    by (split; [discriminate | reflexivity]).
  pose proof (@truecolor_delegates Curses.ncurses
                (of_string "255") (of_string "0") (of_string "0")
                [] (-1) (-1) 0
                {| Color.Colors := None; Color.NextColorIndex := 18;
                   Color.init_color_calls := [] |} H255 H0 H0) as (_ & H).
  apply H. reflexivity.
Defined.

(** C9, as stated, fails: [text_with_fg_bg_attr] yields nothing for
    ['\x1b[2J'] in ["a\x1b[2Jb"]. *)
Lemma non_sgr_token_not_passed_through :
  ~ passes_through Curses.ncurses
      (of_string "a" ++ esc "[2J" ++ of_string "b") Color.registry0.
Proof.
  intros H. specialize (H 1%nat (esc "[2J") eq_refl).
  assert (He : is_escape (esc "[2J")).
  { apply (@match_ansi_sound (esc "[2J") (esc "[2J") []). reflexivity. }
  specialize (H He ltac:(discriminate)).
  vm_compute in H. destruct H as [H | [H | []]]; discriminate H.
Qed.

(** C9, amended.  For every escape sequence [tok] that does not end in
    ['m']: the loop of [text_with_fg_bg_attr] goes on with the colour state
    and the registry it had and yields nothing for [tok]; [tok] adds nothing
    to the visible length; and [tok] is never among the text the generator
    yields, for any input. *)
Theorem non_sgr_token_dropped (E : Curses.env) (wide : char -> bool) (tok : str) :
  is_escape tok -> last tok 0%N <> LOWER_M ->
  (forall chunks fg bg attr st,
     resolve_chunks E (tok :: chunks) fg bg attr st
     = resolve_chunks E chunks fg bg attr st) /\
  (forall t rest, match_free t ->
     char_len wide (t ++ tok ++ rest)
     = WideString.len wide t + char_len wide rest) /\
  (forall s st,
     ~ In (Text tok) (yielded (fst (text_with_fg_bg_attr E s st)))).
Proof.
  intros He Hlast. destruct (is_escape_head He) as (tok' & ->).
  split; [|split].
  - intros. now apply resolve_skip.
  - intros t rest Ht. unfold char_len.
    rewrite (sub_empty_text_escape rest Ht He). apply len_app.
  - intros s st Hin. apply yielded_text in Hin. now apply Hin.
Qed.

Lemma non_sgr_token_dropped_witness :
  (forall chunks fg bg attr st,
     resolve_chunks Curses.ncurses (esc "[2J" :: chunks) fg bg attr st
     = resolve_chunks Curses.ncurses chunks fg bg attr st) /\
  (forall t rest, match_free t ->
     char_len cjk_wide (t ++ esc "[2J" ++ rest)
     = WideString.len cjk_wide t + char_len cjk_wide rest) /\
  (forall s st,
     ~ In (Text (esc "[2J"))
          (yielded (fst (text_with_fg_bg_attr Curses.ncurses s st)))).
Proof.
  apply (@non_sgr_token_dropped Curses.ncurses cjk_wide (esc "[2J")).
  - apply (@match_ansi_sound (esc "[2J") (esc "[2J") []). reflexivity.
  - discriminate.
Defined.

(** C10.  Tokenizer alternation: for every string the list that
    [split_ansi_from_text] returns has odd length; an element is a complete
    escape sequence (a word of [ansi_re]) exactly when its index is odd, which
    is the test [i % 2 == 1] of [char_slice]; and every element at an even
    index is literal text, no substring of which is a word of [ansi_re]. *)
Theorem split_ansi_from_text_alternates (s : str) :
  Nat.odd (List.length (split_ansi_from_text s)) = true /\
  forall i chunk, nth_error (split_ansi_from_text s) i = Some chunk ->
    (is_escape chunk <-> (i mod 2 =? 1)%nat = true) /\
    ((i mod 2 =? 1)%nat = false -> match_free chunk).
Proof.
  unfold split_ansi_from_text. pose proof (alternating_split s) as Ha.
  split; [now apply alternating_length|].
  intros i chunk Hn. pose proof (alternating_nth Ha _ Hn) as H.
  destruct (i mod 2 =? 1)%nat.
  - split; [tauto | discriminate].
  - split; [|auto]. split; [|discriminate].
    intros He. now apply escape_not_free in He.
Qed.

(** * Further properties of the two files *)

(** ** The tokenizer and the visible length *)

Module MoreSplit.
Import Re ReFacts SplitFacts WideString WideFacts.

Lemma pair_ind (A : Type) (P : list A -> Prop) :
  P [] -> (forall a, P [a]) -> (forall a b l, P l -> P (a :: b :: l)) ->
  forall l, P l.
Proof.
  intros H0 H1 H2.
  assert (H : forall l, P l /\ forall a, P (a :: l)).
  { induction l as [|b l [IHl IHal]]; split; auto. }
  intros l. apply H.
Qed.

Lemma no_esc_match_free t :
  forallb (fun c : char => negb (c =? ESC)%N) t = true -> match_free t.
Proof.
  intros H pre m post -> Hm.
  destruct (is_escape_head Hm) as (m' & ->).
  rewrite forallb_forall in H.
  specialize (H ESC). rewrite N.eqb_refl in H.
  assert (Hin : In ESC (pre ++ (ESC :: m') ++ post)).
  { apply in_or_app. right. now left. }
  apply H in Hin. discriminate.
Qed.

Lemma split_match_free t : match_free t -> split t = [t].
Proof.
  intros Ht.
  assert (H : no_match_before t []).
  { apply no_match_before_of_free; [exact Ht | now left]. }
  pose proof (split_app_text H) as E. rewrite app_nil_r in E.
  rewrite E. change (split []) with [@nil char]. cbn [hd tl].
  now rewrite app_nil_r.
Qed.

Lemma split_concat l : alternating l -> split (concat l) = l.
Proof.
  induction 1 as [t Ht | t e l Ht He Hl IH].
  - cbn [concat]. rewrite app_nil_r. now apply split_match_free.
  - cbn [concat]. rewrite (split_text_escape _ Ht He). now rewrite IH.
Qed.

Lemma texts_width_le wide (l : list str) :
  len wide (concat (texts l)) <= len wide (concat l).
Proof.
  induction l as [|a|a b l IH] using pair_ind.
  - reflexivity.
  - reflexivity.
  - cbn [texts concat]. rewrite !len_app.
    pose proof (len_nonneg wide b). lia.
Qed.

End MoreSplit.

(** ** More on the slicer *)

Module MoreSlice.
Import Re ReFacts SplitFacts WideString WideFacts SliceFacts EmptyFacts LeadFacts
       MoreSplit Ansi.

(** *** A slice that covers the string *)

Section Full.
Variable wide : char -> bool.
Variable n : Z.

Lemma emit_whole lc pos t :
  0 <= pos -> pos + len wide t <= n ->
  concat (slices (emit wide 0 n lc pos t)) = t.
Proof.
  intros Hpos Hn. unfold emit. cbv zeta. pose proof (len_nonneg wide t) as Ht.
  destruct (Z.leb_spec (pos + len wide t) 0) as [H1 | H1].
  { symmetry. apply (len_zero wide). lia. }
  destruct (Z.ltb_spec pos 0); [lia|]. cbn [andb].
  destruct (Z.ltb_spec (n + 0) (pos + len wide t)); [lia|].
  cbn [slices concat]. now rewrite app_nil_r.
Qed.

Lemma slices_emit_app lc pos t out :
  slices (emit wide 0 n lc pos t ++ out)
  = slices (emit wide 0 n lc pos t) ++ slices out.
Proof.
  unfold emit. cbv zeta.
  repeat match goal with
         | |- context [if ?b then _ else _] => destruct b
         end; reflexivity.
Qed.

Lemma slice_loop_whole l :
  alternating l -> forall i lc pos,
  Nat.even i = true -> 0 <= pos ->
  pos + len wide (concat (texts l)) <= n ->
  concat (slices (slice_loop wide 0 n l i lc pos [])) = concat (texts l).
Proof.
  induction 1 as [t Ht | t e l Ht He Hl IH]; intros i lc pos Hi Hpos Hn;
    rewrite slice_loop_text by exact Hi; cbv zeta; rewrite app_nil_l.
  - cbn [texts concat] in *. rewrite app_nil_r in *.
    destruct (n <=? pos + len wide t - 0); cbn [slice_loop];
      now apply emit_whole.
  - rewrite texts_width_cons in Hn. cbn [texts concat].
    pose proof (len_nonneg wide t) as Hnt.
    pose proof (len_nonneg wide (concat (texts l))) as Hnl.
    destruct (Z.leb_spec n (pos + len wide t - 0)) as [Hb | Hb].
    + rewrite emit_whole by lia.
      rewrite (len_zero wide (concat (texts l))) by lia.
      now rewrite app_nil_r.
    + rewrite slice_loop_acc, (slice_loop_escape _ _ _ _ _ _ _ _ _ Hi).
      rewrite slices_emit_app, concat_app, emit_whole by lia.
      rewrite IH; [reflexivity | now rewrite Nat.even_succ_succ | lia | lia].
Qed.

End Full.

(** *** Narrow text *)

Section Narrow.
Variable wide : char -> bool.

Lemma len_narrow s :
  (forall c, In c s -> wide c = false) -> len wide s = Z.of_nat (List.length s).
Proof.
  induction s as [|c s IH]; intros H; [reflexivity|].
  cbn [len List.length]. unfold width. rewrite (H c) by now left.
  rewrite IH by (intros; apply H; now right). lia.
Qed.

Lemma drop_cells_narrow s : forall k,
  (forall c, In c s -> wide c = false) -> drop_cells wide k s = skipn k s.
Proof.
  induction s as [|c s IH]; intros k H; [now destruct k|].
  assert (Hs : forall c', In c' s -> wide c' = false) by (intros; apply H; now right).
  destruct k as [|[|k]]; cbn [drop_cells skipn]; rewrite ?(H c) by now left.
  - reflexivity.
  - reflexivity.
  - rewrite (IH (S k) Hs). reflexivity.
Qed.

Lemma take_cells_narrow s : forall k,
  (forall c, In c s -> wide c = false) -> take_cells wide k s = firstn k s.
Proof.
  induction s as [|c s IH]; intros k H; [now destruct k|].
  assert (Hs : forall c', In c' s -> wide c' = false) by (intros; apply H; now right).
  destruct k as [|[|k]]; cbn [take_cells firstn]; rewrite ?(H c) by now left.
  - reflexivity.
  - now destruct s.
  - rewrite (IH (S k) Hs). reflexivity.
Qed.

Lemma in_skipn (A : Type) (x : A) k (s : list A) : In x (skipn k s) -> In x s.
Proof.
  revert s. induction k as [|k IH]; intros s H; [exact H|].
  destruct s as [|a s]; [contradiction|]. right. now apply IH.
Qed.

Lemma getslice_narrow s a stop :
  (forall c, In c s -> wide c = false) -> 0 <= a -> 0 <= stop ->
  getslice wide s (Some a) stop
  = firstn (Z.to_nat (stop - a)) (skipn (Z.to_nat a) s).
Proof.
  intros H Ha Hstop. rewrite getslice_inside by exact Hstop. cbv zeta.
  destruct (Z.ltb_spec a 0); [lia|].
  rewrite drop_cells_narrow by exact H.
  rewrite take_cells_narrow by (intros c Hc; apply H; eapply in_skipn; exact Hc).
  rewrite len_narrow by exact H.
  destruct (Z_le_gt_dec stop (Z.of_nat (List.length s))) as [Hle | Hgt].
  - now rewrite Z.min_l by lia.
  - rewrite Z.min_r by lia.
    rewrite !firstn_all2; [reflexivity | |]; rewrite length_skipn; lia.
Qed.

End Narrow.

(** *** Where the escape sequences of a slice come from *)

Lemma split_colored out :
  colored out -> split (concat out) = match out with [] => [[]] | _ => [] :: out end.
Proof.
  induction 1 as [|e sl out He Hsl Hout IH]; [reflexivity|].
  cbn [concat]. rewrite (split_app_escape _ He). f_equal. f_equal.
  destruct out as [|e' out'].
  - cbn [concat]. rewrite app_nil_r. now apply split_match_free.
  - rewrite split_app_text, IH; [cbn [hd tl]; now rewrite app_nil_r|].
    apply no_match_before_of_free; [exact Hsl | now apply colored_esc_or_end].
Qed.

Lemma split_colored0 out :
  colored0 out ->
  forall tok, In tok (split (concat out)) -> is_escape tok ->
  In tok (colors_of out).
Proof.
  assert (Hcol : forall out, colored out ->
            forall tok, In tok out -> is_escape tok -> In tok (colors_of out)).
  { induction 1 as [|e sl out' He Hsl Hout IH]; intros tok Hin Htok;
      [contradiction|].
    cbn [colors_of]. destruct Hin as [<- | [<- | Hin]].
    - now left.
    - now apply escape_not_free in Htok.
    - right. now apply IH. }
  intros [-> | (c & sl & out' & -> & Hc & Hsl & Hout)] tok Hin Htok.
  - destruct Hin as [<- | []]. now apply is_escape_not_nil in Htok.
  - destruct Hc as [-> | Hc].
    + cbn [concat app] in Hin. cbn [colors_of]. right.
      destruct out' as [|e' out''].
      * cbn [concat] in Hin. rewrite app_nil_r in Hin.
        rewrite (split_match_free Hsl) in Hin.
        destruct Hin as [<- | []]. now apply escape_not_free in Htok.
      * rewrite split_app_text in Hin
          by (apply no_match_before_of_free;
              [exact Hsl | now apply colored_esc_or_end]).
        rewrite (split_colored Hout) in Hin. cbn [hd tl] in Hin.
        rewrite app_nil_r in Hin.
        destruct Hin as [<- | Hin]; [now apply escape_not_free in Htok|].
        now apply Hcol.
    + assert (Hall : colored (c :: sl :: out')) by now constructor.
      rewrite (split_colored Hall) in Hin.
      destruct Hin as [<- | Hin]; [now apply is_escape_not_nil in Htok|].
      now apply Hcol.
Qed.

Section Colors.
Variable wide : char -> bool.
Variables start length : Z.

Lemma colors_emit_app lc pos t out :
  colors_of (emit wide start length lc pos t ++ out)
  = colors_of (emit wide start length lc pos t) ++ colors_of out.
Proof.
  unfold emit. cbv zeta.
  repeat match goal with
         | |- context [if ?b then _ else _] => destruct b
         end; reflexivity.
Qed.

Lemma colors_emit lc pos t c :
  In c (colors_of (emit wide start length lc pos t)) -> c = lc.
Proof.
  unfold emit. cbv zeta.
  repeat match goal with
         | |- context [if ?b then _ else _] => destruct b
         end; cbn [colors_of In]; intuition.
Qed.

(** Every colour the loop appends is the [last_color] it was entered with
    or one of the chunks it has walked over. *)
Lemma slice_loop_colors l :
  alternating l -> forall i lc pos c,
  Nat.even i = true ->
  In c (colors_of (slice_loop wide start length l i lc pos [])) ->
  c = lc \/ In c l.
Proof.
  induction 1 as [t Ht | t e l Ht He Hl IH]; intros i lc pos c Hi Hin;
    rewrite slice_loop_text in Hin by exact Hi; cbv zeta in Hin;
    rewrite app_nil_l in Hin.
  - left. destruct (length <=? pos + len wide t - start);
      cbn [slice_loop] in Hin; eapply colors_emit; exact Hin.
  - destruct (length <=? pos + len wide t - start).
    + left. eapply colors_emit; exact Hin.
    + rewrite slice_loop_acc, (slice_loop_escape _ _ _ _ _ _ _ _ _ Hi) in Hin.
      rewrite colors_emit_app in Hin. apply in_app_or in Hin.
      destruct Hin as [Hin | Hin]; [left; eapply colors_emit; exact Hin|].
      right. apply IH in Hin; [|now rewrite Nat.even_succ_succ].
      destruct Hin as [-> | Hin]; [right; now left | right; now right].
Qed.

End Colors.

End MoreSlice.

(** ** More on the resolver *)

Module MoreResolve.
Import Re ReFacts SplitFacts ResolveFacts MoreSplit Ansi.

(** One test of the chain of [parse_attr]. *)
Ltac chain_step :=
  match goal with
  | |- context [if (?a =? ?b) then _ else _] => destruct (Z.eqb_spec a b)
  | |- context [if (?a <=? ?b) && (?c <=? ?d) then _ else _] =>
      destruct (Z.leb_spec a b); destruct (Z.leb_spec c d); cbn [andb]
  end; cbv iota.

Lemma testbit_attr_mask E n bit :
  In bit [Color.bold E; Color.underline E; Color.blink E; Color.reverse E;
          Color.invisible E] ->
  Z.testbit bit n = true -> Z.testbit (attr_mask E) n = true.
Proof.
  unfold attr_mask. intros Hin Hb. rewrite !Z.lor_spec.
  cbn [In] in Hin.
  repeat (destruct Hin as [<- | Hin];
          [rewrite Hb; now rewrite ?Bool.orb_true_r |]).
  contradiction.
Qed.

(** The plain text: no match, one chunk. *)
Lemma resolve_plain E t fg bg attr st :
  hd_error t <> Some ESC ->
  resolve_chunks E [t] fg bg attr st
  = ({| yielded := [Text t]; raised := None |}, st).
Proof.
  intros H. cbn [resolve_chunks]. destruct t as [|c t]; [reflexivity|].
  destruct (N.eqb_spec c ESC) as [-> | Hne]; [now elim H | reflexivity].
Qed.

Lemma no_esc_hd t :
  forallb (fun c : char => negb (c =? ESC)%N) t = true -> hd_error t <> Some ESC.
Proof.
  destruct t as [|c t]; [discriminate|]. cbn [forallb hd_error]. intros H E.
  injection E as ->. discriminate H.
Qed.

End MoreResolve.

(** ** The colour registry *)

Module MoreColor.
Import Color.

Lemma rgb_eqb_eq a b : rgb_eqb a b = true <-> a = b.
Proof.
  destruct a as [[r1 g1] b1], b as [[r2 g2] b2]. unfold rgb_eqb.
  rewrite !Bool.andb_true_iff, !Z.eqb_eq. split.
  - intros [[-> ->] ->]. reflexivity.
  - intros E. injection E as -> -> ->. auto.
Qed.

Lemma rgb_eqb_refl a : rgb_eqb a a = true.
Proof. now apply rgb_eqb_eq. Qed.

Lemma dict_get_set_same k v d : dict_get k (dict_set k v d) = Some v.
Proof.
  induction d as [|[k0 v0] d IH]; cbn [dict_set dict_get].
  - now rewrite rgb_eqb_refl.
  - destruct (rgb_eqb k k0) eqn:E; cbn [dict_get].
    + now rewrite rgb_eqb_refl.
    + now rewrite E.
Qed.

Lemma dict_get_set_other k k' v d :
  rgb_eqb k k' = false -> dict_get k (dict_set k' v d) = dict_get k d.
Proof.
  intros Hn. induction d as [|[k0 v0] d IH]; cbn [dict_set dict_get].
  - now rewrite Hn.
  - destruct (rgb_eqb k' k0) eqn:E; cbn [dict_get].
    + apply rgb_eqb_eq in E. subst k0. now rewrite Hn.
    + now rewrite IH.
Qed.


Lemma dict_set_not_nil k v d : dict_set k v d <> [].
Proof. destruct d as [|[k0 v0] d]; cbn [dict_set]; [|destruct (rgb_eqb k k0)]; discriminate. Qed.



Section Folding.
Variable f : Z -> rgb.

Lemma fold_dict_set_not_nil l d :
  (l <> [] \/ d <> []) ->
  fold_left (fun d c => dict_set (f c) c d) l d <> [].
Proof.
  revert d. induction l as [|c l IH]; intros d H; cbn [fold_left].
  - destruct H; congruence.
  - apply IH. right. apply dict_set_not_nil.
Qed.


End Folding.

Section WithCurses.
Variable E : Curses.env.

Lemma initial_dict_not_nil st : initial_dict E st <> [].
Proof. unfold initial_dict. apply fold_dict_set_not_nil. left. discriminate. Qed.


Lemma current_dict_not_nil st : current_dict E st <> [].
Proof.
  unfold current_dict. destruct (Colors st) as [[|x d]|].
  - apply initial_dict_not_nil.
  - discriminate.
  - apply initial_dict_not_nil.
Qed.

Lemma current_dict_with_dict d st : d <> [] -> current_dict E (with_dict d st) = d.
Proof. destruct d; [congruence | reflexivity]. Qed.

(** [get_color_id], with its table and its branches named. *)
Lemma get_color_id_eq r g b st :
  get_color_id E r g b st =
  let colors := current_dict E st in
  match dict_get (scaled r g b) colors with
  | Some colid => (Ok colid, with_dict colors st)
  | None =>
      if exhausted E st then (Ok (-1), with_dict colors st)
      else if Curses.init_color_ok E (next_slot E st) (scaled r g b) then
        (Ok (next_slot E st),
         {| Colors := Some (dict_set (scaled r g b) (next_slot E st) colors);
            NextColorIndex := NextColorIndex st + 1;
            init_color_calls :=
              (next_slot E st, scaled r g b) :: init_color_calls st |})
      else (Raise CursesError, with_dict colors st)
  end.
Proof. reflexivity. Qed.

Lemma exhausted_with_dict st :
  exhausted E (with_dict (current_dict E st) st) = exhausted E st.
Proof.
  unfold exhausted. now rewrite (current_dict_with_dict st (current_dict_not_nil st)).
Qed.

End WithCurses.


End MoreColor.

(** ** The colour registry: what calls keep *)

Module RegistryFacts.
Import Color MoreColor.

Section WithCurses.
Variable E : Curses.env.

Lemma current_dict_some st d :
  Colors st = Some d -> d <> [] -> current_dict E st = d.
Proof.
  unfold current_dict. intros -> H. destruct d; [congruence | reflexivity].
Qed.





(** A second call with the same colour finds what the first one left. *)
Lemma get_color_id_again r g b st :
  get_color_id E r g b (snd (get_color_id E r g b st)) = get_color_id E r g b st.
Proof.
  pose proof (current_dict_not_nil E st) as Hne.
  rewrite (get_color_id_eq E r g b st). cbv zeta.
  destruct (dict_get (scaled r g b) (current_dict E st)) as [c|] eqn:Hg.
  - cbn [snd]. rewrite get_color_id_eq. cbv zeta.
    rewrite (current_dict_with_dict E st Hne), Hg. reflexivity.
  - destruct (exhausted E st) eqn:Hex.
    + cbn [snd]. rewrite get_color_id_eq. cbv zeta.
      rewrite exhausted_with_dict, Hex.
      rewrite (current_dict_with_dict E st Hne), Hg. reflexivity.
    + destruct (Curses.init_color_ok E (next_slot E st) (scaled r g b)) eqn:Hok.
      * cbn [snd]. rewrite get_color_id_eq. cbv zeta.
        match goal with
        | |- context [current_dict E ?s] =>
            rewrite (@current_dict_some s
                       (dict_set (scaled r g b) (next_slot E st) (current_dict E st))
                       eq_refl (@dict_set_not_nil _ _ _))
        end.
        rewrite dict_get_set_same. reflexivity.
      * cbn [snd]. rewrite get_color_id_eq. cbv zeta.
        rewrite exhausted_with_dict, Hex.
        rewrite (current_dict_with_dict E st Hne), Hg.
        change (next_slot E (with_dict (current_dict E st) st)) with (next_slot E st).
        rewrite Hok. reflexivity.
Qed.


(** A table with an entry is the table the next call works with. *)
Lemma registry_dict_current st k v :
  dict_get k (registry_dict st) = Some v -> current_dict E st = registry_dict st.
Proof.
  unfold registry_dict, current_dict.
  destruct (Colors st) as [[|e d]|]; cbn [dict_get]; try discriminate.
  reflexivity.
Qed.

(** The entries of the table stay as they are. *)
Lemma get_color_id_stable r g b st k v :
  dict_get k (current_dict E st) = Some v ->
  dict_get k (registry_dict (snd (get_color_id E r g b st))) = Some v.
Proof.
  intros Hk. rewrite get_color_id_eq. cbv zeta.
  destruct (dict_get (scaled r g b) (current_dict E st)) as [c|] eqn:Hg;
    [exact Hk|].
  destruct (exhausted E st); [exact Hk|].
  destruct (Curses.init_color_ok E _ _); [|exact Hk].
  cbn [snd registry_dict Colors].
  rewrite dict_get_set_other; [exact Hk|].
  destruct (rgb_eqb k (scaled r g b)) eqn:Ek; [|reflexivity].
  apply rgb_eqb_eq in Ek. subst k. congruence.
Qed.

End WithCurses.

End RegistryFacts.

(** ** The pair table *)

Module PairFacts.
Import ColorPairs.

Lemma key_eqb_eq a b : key_eqb a b = true <-> a = b.
Proof.
  destruct a as [n | f1 b1], b as [m | f2 b2]; cbn [key_eqb].
  - rewrite Z.eqb_eq. split; congruence.
  - split; discriminate.
  - split; discriminate.
  - rewrite Bool.andb_true_iff, !Z.eqb_eq. split; [intros [-> ->]; reflexivity|].
    intros H. injection H as -> ->. auto.
Qed.

Lemma pairs_get_app k d l :
  pairs_get k (d ++ l)
  = match pairs_get k d with Some v => Some v | None => pairs_get k l end.
Proof.
  induction d as [|[k0 v0] d IH]; cbn [app pairs_get]; [reflexivity|].
  now destruct (key_eqb k k0).
Qed.

Lemma pairs_get_in k v d : pairs_get k d = Some v -> In (k, v) d.
Proof.
  induction d as [|[k0 v0] d IH]; cbn [pairs_get]; [discriminate|].
  destruct (key_eqb k k0) eqn:E.
  - apply key_eqb_eq in E. subst k0. intros H. injection H as ->. now left.
  - intros H. right. now apply IH.
Qed.

Lemma nodup_snd_functional (A B : Type) (l : list (A * B)) x y b :
  NoDup (map snd l) -> In (x, b) l -> In (y, b) l -> x = y.
Proof.
  induction l as [|[a0 b0] l IH]; cbn [map snd]; intros Hnd Hx Hy; [contradiction|].
  inversion Hnd as [|? ? Hnin Hnd']; subst.
  destruct Hx as [Ex | Hx]; destruct Hy as [Ey | Hy].
  - congruence.
  - injection Ex as -> ->. elim Hnin. apply (in_map snd) in Hy. exact Hy.
  - injection Ey as -> ->. elim Hnin. apply (in_map snd) in Hx. exact Hx.
  - now apply IH.
Qed.

Lemma nodup_numbering n : NoDup (map Z.of_nat (seq 0 n)).
Proof.
  apply NoDup_map_NoDup_ForallPairs; [|apply seq_NoDup].
  intros a b _ _. apply Nat2Z.inj.
Qed.

Lemma in_numbering v n : In v (map Z.of_nat (seq 0 n)) -> 0 <= v < Z.of_nat n.
Proof.
  intros H. apply in_map_iff in H. destruct H as (i & <- & Hi).
  apply in_seq in Hi. lia.
Qed.

Section WithCurses.
Variable ok : Z -> Z -> Z -> bool.

(** The two results of [get_color]. *)
Lemma get_color_cases fg bg st :
  (exists n, pairs_get (PairKey fg bg) (COLOR_PAIRS st) = Some n /\
             get_color ok fg bg st = (n, st)) \/
  (pairs_get (PairKey fg bg) (COLOR_PAIRS st) = None /\
   exists calls,
     get_color ok fg bg st
     = (Z.of_nat (List.length (COLOR_PAIRS st)),
        {| COLOR_PAIRS := COLOR_PAIRS st
                          ++ [(PairKey fg bg, Z.of_nat (List.length (COLOR_PAIRS st)))];
           init_pair_calls := calls |}) /\
     (calls = init_pair_calls st \/
      exists f b, calls = (Z.of_nat (List.length (COLOR_PAIRS st)), f, b)
                          :: init_pair_calls st)).
Proof.
  unfold get_color. cbv zeta.
  destruct (pairs_get (PairKey fg bg) (COLOR_PAIRS st)) as [n|]; [left; eauto|].
  right. split; [reflexivity|]. eexists. split; [reflexivity|].
  destruct (ok _ fg bg); [right; eauto|].
  destruct (ok _ _ _); [right; eauto | now left].
Qed.

Lemma pairs_inv_step fg bg st :
  pairs_inv st -> pairs_inv (snd (get_color ok fg bg st)).
Proof.
  intros Hinv.
  destruct (get_color_cases fg bg st) as [(n & _ & ->) | (Hg & calls & -> & Hc)];
    [exact Hinv|].
  destruct Hinv as ((tl & Htl) & Hnum & Hkeys & Hnd & Hr).
  unfold pairs_inv, init_pair_ids in *. cbn [snd COLOR_PAIRS init_pair_calls].
  set (n := List.length (COLOR_PAIRS st)) in *.
  assert (Hn : (1 <= n)%nat) by (subst n; rewrite Htl; cbn [List.length]; lia).
  split; [|split; [|split; [|split]]].
  - exists (tl ++ [(PairKey fg bg, Z.of_nat n)]). now rewrite Htl.
  - rewrite map_app, length_app, Hnum. cbn [map snd List.length].
    fold n. replace (n + 1)%nat with (S n) by lia.
    now rewrite seq_S, map_app.
  - intros k v Hin. apply in_app_or in Hin. destruct Hin as [Hin | [Hin | []]].
    + now apply (Hkeys k v).
    + injection Hin as <- _. right. eauto.
  - destruct Hc as [-> | (f & b & ->)]; [exact Hnd|].
    cbn [map fst]. constructor; [|exact Hnd].
    intros Hin. apply Hr in Hin. lia.
  - intros c Hin. rewrite length_app. cbn [List.length]. fold n.
    destruct Hc as [-> | (f & b & ->)].
    + apply Hr in Hin. lia.
    + cbn [map fst] in Hin. destruct Hin as [<- | Hin]; [lia | apply Hr in Hin; lia].
Qed.

Lemma pairs_inv_reachable st : pairs_reachable ok st -> pairs_inv st.
Proof.
  induction 1 as [|st fg bg _ IH]; [|now apply pairs_inv_step].
  unfold pairs_inv, init_pair_ids. cbn.
  split; [eauto|]. split; [reflexivity|]. split; [|split].
  - intros k v [H | []]. injection H as <- _. now left.
  - constructor.
  - intros c [].
Qed.

Lemma key_eqb_refl k : key_eqb k k = true.
Proof. now apply key_eqb_eq. Qed.

(** After a call the key is in the table under the number returned. *)
Lemma get_color_lookup fg bg st :
  pairs_get (PairKey fg bg) (COLOR_PAIRS (snd (get_color ok fg bg st)))
  = Some (fst (get_color ok fg bg st)).
Proof.
  destruct (get_color_cases fg bg st) as [(n & Hg & ->) | (Hg & calls & -> & _)];
    cbn [fst snd COLOR_PAIRS]; [exact Hg|].
  rewrite pairs_get_app, Hg. cbn [pairs_get]. now rewrite key_eqb_refl.
Qed.

(** The entries of the table stay as they are. *)
Lemma get_color_stable fg bg st k v :
  pairs_get k (COLOR_PAIRS st) = Some v ->
  pairs_get k (COLOR_PAIRS (snd (get_color ok fg bg st))) = Some v.
Proof.
  intros Hk.
  destruct (get_color_cases fg bg st) as [(n & Hg & ->) | (Hg & calls & -> & _)];
    cbn [snd COLOR_PAIRS]; [exact Hk|].
  now rewrite pairs_get_app, Hk.
Qed.

(** In a numbered table two keys with one number are one key. *)
Lemma pairs_inv_injective st k1 k2 v :
  pairs_inv st ->
  In (k1, v) (COLOR_PAIRS st) -> In (k2, v) (COLOR_PAIRS st) -> k1 = k2.
Proof.
  intros (_ & Hnum & _) H1 H2.
  apply (@nodup_snd_functional _ _ (COLOR_PAIRS st) k1 k2 v); try assumption.
  rewrite Hnum. apply nodup_numbering.
Qed.

(** The number of a pair key is at least 1 and below the size of the
    table. *)
Lemma pairs_inv_range st fg bg v :
  pairs_inv st -> In (PairKey fg bg, v) (COLOR_PAIRS st) ->
  1 <= v < Z.of_nat (List.length (COLOR_PAIRS st)).
Proof.
  intros Hinv Hin.
  assert (Hv : 0 <= v < Z.of_nat (List.length (COLOR_PAIRS st))).
  { destruct Hinv as (_ & Hnum & _). apply in_numbering. rewrite <- Hnum.
    apply (in_map snd) in Hin. exact Hin. }
  assert (v <> 0); [|lia].
  intros ->. pose proof Hinv as ((tl & Htl) & _).
  assert (H0 : In (IntKey 10, 0) (COLOR_PAIRS st)) by (rewrite Htl; now left).
  pose proof (@pairs_inv_injective st _ _ _ Hinv Hin H0). discriminate.
Qed.

End WithCurses.

End PairFacts.

(** ** Statements *)

Import MoreSplit MoreSlice.

(** X1.  No escape sequence is a proper prefix of another: if two words of
    [ansi_re] begin the same string they are the same word.  So the lazy
    quantifier of the pattern has no choice to make. *)
Theorem escape_sequences_prefix_free (m1 m2 r1 r2 : str) :
  is_escape m1 -> is_escape m2 -> m1 ++ r1 = m2 ++ r2 ->
  m1 = m2 /\ r1 = r2.
Proof.
  intros H1 H2 E.
  pose proof (match_ansi_complete r1 H1) as E1.
  pose proof (match_ansi_complete r2 H2) as E2.
  rewrite E, E2 in E1. injection E1 as -> ->. now split.
Qed.

Lemma escape_sequences_prefix_free_witness :
  esc "[1;31m" = esc "[1;31m" /\ of_string "m" = of_string "m".
Proof.
  apply (@escape_sequences_prefix_free (esc "[1;31m") (esc "[1;31m")
           (of_string "m") (of_string "m")).
  - apply (@match_ansi_sound (esc "[1;31m") (esc "[1;31m") []). reflexivity.
  - apply (@match_ansi_sound (esc "[1;31m") (esc "[1;31m") []). reflexivity.
  - reflexivity.
Defined.

(** X2.  The tokenizer undoes joining: a list of literal texts and escape
    sequences in turn (text first and last) is what
    [split_ansi_from_text] returns for their concatenation. *)
Theorem split_ansi_from_text_of_concat (l : list str) :
  alternating l -> split_ansi_from_text (concat l) = l.
Proof. unfold split_ansi_from_text. apply split_concat. Qed.

Lemma split_ansi_from_text_of_concat_witness :
  split_ansi_from_text (concat [of_string "ab"; esc "[0m"; of_string "c"])
  = [of_string "ab"; esc "[0m"; of_string "c"].
Proof.
  apply split_ansi_from_text_of_concat.
  apply alt_cons.
  - apply no_esc_match_free. reflexivity.
  - apply (@match_ansi_sound (esc "[0m") (esc "[0m") []). reflexivity.
  - apply alt_last. apply no_esc_match_free. reflexivity.
Defined.

(** X3.  [char_len] counts the cells of the text chunks of the tokenizer:
    [ansi_re.sub('', s)] is the even-indexed elements of [ansi_re.split(s)]
    joined.  It is never negative and never more than the cells of the whole
    string. *)
Theorem char_len_counts_text_chunks (wide : char -> bool) (s : str) :
  Re.sub_empty s = concat (texts (split_ansi_from_text s)) /\
  char_len wide s
  = WideString.len wide (concat (texts (split_ansi_from_text s))) /\
  0 <= char_len wide s <= WideString.len wide s.
Proof.
  unfold char_len, split_ansi_from_text. rewrite sub_empty_texts.
  split; [reflexivity|]. split; [reflexivity|]. split.
  - apply len_nonneg.
  - rewrite <- (concat_split s) at 2. apply texts_width_le.
Qed.

(** X4.  Colouring text does not change its visible length: for literal
    texts and escape sequences in turn, [char_len] of the concatenation is
    the number of cells of the texts. *)
Theorem char_len_of_concat (wide : char -> bool) (l : list str) :
  alternating l ->
  char_len wide (concat l) = WideString.len wide (concat (texts l)).
Proof.
  intros Hl. unfold char_len. rewrite sub_empty_texts.
  now rewrite (split_concat Hl).
Qed.

Lemma char_len_of_concat_witness :
  char_len cjk_wide
    (concat [[]; esc "[1;31m"; of_string "a" ++ [12514%N]; esc "[0m"; []])
  = WideString.len cjk_wide
      (concat (texts [[]; esc "[1;31m"; of_string "a" ++ [12514%N];
                      esc "[0m"; []])).
Proof.
  apply char_len_of_concat.
  apply alt_cons; [apply no_esc_match_free; reflexivity | |].
  { apply (@match_ansi_sound (esc "[1;31m") (esc "[1;31m") []). reflexivity. }
  apply alt_cons; [apply no_esc_match_free; reflexivity | |].
  { apply (@match_ansi_sound (esc "[0m") (esc "[0m") []). reflexivity. }
  apply alt_last. apply no_esc_match_free. reflexivity.
Defined.



(** X6.  A slice from 0 that is long enough keeps all the visible text:
    for [n >= char_len(s)], stripping the escape sequences of
    [char_slice(s, 0, n)] gives what stripping those of [s] gives. *)
Theorem char_slice_from_zero_keeps_text (wide : char -> bool) (s : str) (n : Z) :
  char_len wide s <= n ->
  Re.sub_empty (char_slice wide s 0 n) = Re.sub_empty s.
Proof.
  intros Hn. unfold char_len in Hn. unfold char_slice, split_ansi_from_text.
  pose proof (alternating_split s) as Halt.
  rewrite sub_empty_colored0
    by (apply slice_loop_colored0; [exact Halt | reflexivity | now left]).
  rewrite sub_empty_texts in *.
  apply slice_loop_whole; [exact Halt | reflexivity | lia | lia].
Qed.

Lemma char_slice_from_zero_keeps_text_witness :
  Re.sub_empty (char_slice cjk_wide test_string 0 17) = Re.sub_empty test_string.
Proof.
  apply (@char_slice_from_zero_keeps_text cjk_wide test_string 17).
  vm_compute. discriminate.
Defined.

(** X7.  On text without an escape character and without wide glyphs
    [char_slice] is the plain slice [s[start:start + length]], for
    [start >= 0] and [length >= 0]. *)
Theorem char_slice_plain_text (wide : char -> bool) (s : str) (start length : Z) :
  forallb (fun c : char => negb (c =? ESC)%N) s = true ->
  (forall c, In c s -> wide c = false) ->
  0 <= start -> 0 <= length ->
  char_slice wide s start length
  = firstn (Z.to_nat length) (skipn (Z.to_nat start) s).
Proof.
  intros Hesc Hnarrow Hstart Hlen.
  unfold char_slice, split_ansi_from_text.
  rewrite (split_match_free (@no_esc_match_free s Hesc)).
  rewrite slice_loop_text by reflexivity. cbv zeta. rewrite app_nil_l.
  cbn [slice_loop].
  match goal with
  | |- concat (if ?b then ?x else ?x) = _ =>
      replace (if b then x else x) with x by (now destruct b)
  end.
  unfold emit. cbv zeta. rewrite Z.add_0_l, !Z.sub_0_r.
  rewrite len_narrow by exact Hnarrow.
  destruct (Z.leb_spec (Z.of_nat (List.length s)) start) as [H1 | H1].
  { cbn [concat]. rewrite skipn_all2 by lia. now rewrite firstn_nil. }
  destruct (Z.ltb_spec 0 start) as [H2 | H2];
    destruct (Z.leb_spec start (Z.of_nat (List.length s))) as [H3 | H3];
    cbn [andb]; try lia.
  { cbn [concat app]. rewrite app_nil_r.
    rewrite getslice_narrow by (assumption || lia). f_equal. f_equal. lia. }
  assert (start = 0) by lia. subst start. cbn [Z.to_nat skipn].
  destruct (Z.ltb_spec (length + 0) (Z.of_nat (List.length s))) as [H4 | H4].
  - cbn [concat app]. rewrite app_nil_r.
    change (WideString.getslice wide s None (0 + length))
      with (WideString.getslice wide s (Some 0) (0 + length)).
    rewrite getslice_narrow by (assumption || lia).
    cbn [Z.to_nat skipn]. f_equal. lia.
  - cbn [concat app]. rewrite app_nil_r.
    rewrite firstn_all2 by lia. reflexivity.
Qed.

Lemma char_slice_plain_text_witness :
  char_slice cjk_wide (of_string "hello") 1 3
  = firstn (Z.to_nat 3) (skipn (Z.to_nat 1) (of_string "hello")).
Proof.
  apply char_slice_plain_text.
  - reflexivity.
  - intros c Hc.
    assert (H : forallb (fun c => negb (cjk_wide c)) (of_string "hello") = true)
      by reflexivity.
    rewrite forallb_forall in H. apply H in Hc.
    now destruct (cjk_wide c).
  - lia.
  - lia.
Defined.

(** X8.  [char_slice] makes up no escape sequence: every escape sequence
    in the tokenization of a slice is one of the escape sequences in the
    tokenization of the string, whatever [start] and [length] are. *)
Theorem char_slice_escapes_from_source (wide : char -> bool) (s : str)
    (start length : Z) (tok : str) :
  In tok (split_ansi_from_text (char_slice wide s start length)) ->
  is_escape tok ->
  In tok (split_ansi_from_text s).
Proof.
  unfold char_slice, split_ansi_from_text. intros Hin Htok.
  pose proof (alternating_split s) as Halt.
  apply split_colored0 in Hin; [|
    apply slice_loop_colored0; [exact Halt | reflexivity | now left] |
    exact Htok].
  apply (@slice_loop_colors wide start length _ Halt) in Hin; [|reflexivity].
  destruct Hin as [-> | Hin]; [|exact Hin].
  now apply is_escape_not_nil in Htok.
Qed.

Lemma char_slice_escapes_from_source_witness :
  In (esc "[31m") (split_ansi_from_text test_string).
Proof.
  apply (@char_slice_escapes_from_source cjk_wide test_string 9 4 (esc "[31m")).
  - vm_compute. right. left. reflexivity.
  - apply (@match_ansi_sound (esc "[31m") (esc "[31m") []). reflexivity.
Defined.

Import MoreResolve.

(** X9.  [parse_attr] keeps the colours in range: if [fg] and [bg] are
    default, standard or bright colours (-1 to 15), so are they after any
    code. *)
Theorem parse_attr_keeps_color_range (E : Curses.env) (code fg bg attr : Z) :
  ansi_color fg -> ansi_color bg ->
  ansi_color (fst (fst (parse_attr E code fg bg attr))) /\
  ansi_color (snd (fst (parse_attr E code fg bg attr))).
Proof.
  unfold ansi_color, parse_attr. intros Hfg Hbg.
  repeat chain_step; cbn [fst snd]; lia.
Qed.

Lemma parse_attr_keeps_color_range_witness :
  ansi_color (fst (fst (parse_attr Curses.ncurses 97 3 (-1) 0))) /\
  ansi_color (snd (fst (parse_attr Curses.ncurses 97 3 (-1) 0))).
Proof.
  apply parse_attr_keeps_color_range; unfold ansi_color; lia.
Defined.

(** X10.  [parse_attr] sets no bit of its own: every bit of the new
    attribute mask was set before or is one of the five attribute bits. *)
Theorem parse_attr_sets_known_bits (E : Curses.env) (code fg bg attr n : Z) :
  Z.testbit (snd (parse_attr E code fg bg attr)) n = true ->
  Z.testbit attr n = true \/ Z.testbit (attr_mask E) n = true.
Proof.
  unfold parse_attr.
  repeat chain_step; cbn [fst snd]; intros Hbit; auto;
    try (rewrite Z.bits_0 in Hbit; discriminate);
    try (rewrite Z.land_spec in Hbit; apply Bool.andb_true_iff in Hbit; tauto);
    rewrite Z.lor_spec in Hbit; apply Bool.orb_true_iff in Hbit;
    (destruct Hbit as [Hbit | Hbit]; [now left | right]);
    (eapply testbit_attr_mask; [|exact Hbit]); cbn [In]; tauto.
Qed.

Lemma parse_attr_sets_known_bits_witness :
  Z.testbit 131072 21 = true \/ Z.testbit (attr_mask Curses.ncurses) 21 = true.
Proof.
  apply (@parse_attr_sets_known_bits Curses.ncurses 1 (-1) (-1) 131072 21).
  reflexivity.
Defined.

(** X11.  The enable codes accumulate: two enable codes give the same
    state in either order, and an enable code given twice is as good as
    once. *)
Theorem enable_codes_commute (E : Curses.env) (c1 c2 : Z) (s : Z * Z * Z) :
  enable_code c1 -> enable_code c2 ->
  attr_step E c2 (attr_step E c1 s) = attr_step E c1 (attr_step E c2 s) /\
  attr_step E c1 (attr_step E c1 s) = attr_step E c1 s.
Proof.
  destruct s as [[fg bg] attr]. unfold enable_code.
  intros H1 H2.
  assert (Hc : forall a x y, Z.lor (Z.lor a x) y = Z.lor (Z.lor a y) x).
  { intros. rewrite <- !Z.lor_assoc. f_equal. apply Z.lor_comm. }
  assert (Hi : forall a x, Z.lor (Z.lor a x) x = Z.lor a x).
  { intros. rewrite <- Z.lor_assoc. now rewrite Z.lor_diag. }
  destruct H1 as [-> | [-> | [-> | [-> | ->]]]];
    destruct H2 as [-> | [-> | [-> | [-> | ->]]]];
    cbn [attr_step parse_attr Z.eqb Pos.eqb];
    (split; [first [reflexivity | now rewrite Hc] | now rewrite Hi]).
Qed.

Lemma enable_codes_commute_witness :
  attr_step Curses.ncurses 4 (attr_step Curses.ncurses 1 (2, -1, 0))
  = attr_step Curses.ncurses 1 (attr_step Curses.ncurses 4 (2, -1, 0)) /\
  attr_step Curses.ncurses 1 (attr_step Curses.ncurses 1 (2, -1, 0))
  = attr_step Curses.ncurses 1 (2, -1, 0).
Proof.
  apply enable_codes_commute; unfold enable_code; lia.
Defined.

(** X12.  What a code leaves alone: [parse_attr] changes [fg] only on the
    codes 0, 30-37, 39, 90-97 and 99, [bg] only on 0, 40-47, 49, 100-107 and
    109, and [attr] only on 0 and the ten attribute codes; on every other
    code the state is returned as it is. *)
Theorem parse_attr_frame (E : Curses.env) (code fg bg attr : Z) :
  (~ fg_code code -> fst (fst (parse_attr E code fg bg attr)) = fg) /\
  (~ bg_code code -> snd (fst (parse_attr E code fg bg attr)) = bg) /\
  (~ attr_code code -> snd (parse_attr E code fg bg attr) = attr).
Proof.
  unfold fg_code, bg_code, attr_code, enable_code, parse_attr.
  repeat chain_step; cbn [fst snd]; repeat split; intros Hno;
    try reflexivity; exfalso; apply Hno; lia.
Qed.

Lemma parse_attr_frame_witness :
  fst (fst (parse_attr Curses.ncurses 3 4 5 6)) = 4 /\
  snd (fst (parse_attr Curses.ncurses 31 4 5 6)) = 5 /\
  snd (parse_attr Curses.ncurses 45 4 5 6) = 6.
Proof.
  split; [|split].
  - apply (proj1 (parse_attr_frame Curses.ncurses 3 4 5 6)).
    unfold fg_code. lia.
  - apply (proj1 (proj2 (parse_attr_frame Curses.ncurses 31 4 5 6))).
    unfold bg_code. lia.
  - apply (proj2 (proj2 (parse_attr_frame Curses.ncurses 45 4 5 6))).
    unfold attr_code, enable_code. lia.
Defined.

(** X13.  Only the first parameter of a token counts: unless it is 38 or
    48 the state becomes what [parse_attr] makes of the first parameter, and
    the parameters behind it are not looked at (['\x1b[1;31m'] sets bold and
    leaves [fg]). *)
Theorem sgr_first_parameter_only (E : Curses.env) (p : str) (rest chunks : list str)
    (fg bg attr : Z) (st : Color.registry) :
  digit_string p -> Forall digit_string rest ->
  value p <> 38 -> value p <> 48 ->
  resolve_chunks E (sgr (p :: rest) :: chunks) fg bg attr st
  = resolved E chunks (Ok (parse_attr E (value p) fg bg attr), st).
Proof.
  intros Hp Hrest H38 H48.
  assert (Hd : Forall digit_string (p :: rest)) by now constructor.
  rewrite resolve_sgr; [|discriminate | exact (Forall_digit_string_all Hd)].
  rewrite (map_int_digit_strings Hd). cbn [map]. unfold parse_ansi_code.
  destruct (Z.eqb_spec (value p) 38); [contradiction|].
  destruct (Z.eqb_spec (value p) 48); [contradiction|].
  reflexivity.
Qed.

Lemma sgr_first_parameter_only_witness :
  resolve_chunks Curses.ncurses [sgr [of_string "1"; of_string "31"]]
    (-1) (-1) 0 Color.registry0
  = resolved Curses.ncurses []
      (Ok (parse_attr Curses.ncurses (value (of_string "1")) (-1) (-1) 0),
       Color.registry0).
Proof.
  assert (H1 : digit_string (of_string "1"))
    by (split; [discriminate | reflexivity]).
  assert (H31 : Forall digit_string [of_string "31"]) by solve_digits.
  apply (@sgr_first_parameter_only Curses.ncurses (of_string "1")
           [of_string "31"] [] (-1) (-1) 0 Color.registry0 H1 H31).
  - discriminate.
  - discriminate.
Defined.

(** X14.  A token whose only parameter is 38 or 48 (['\x1b[38m']) ends
    the generator with [IndexError]: [parse_color] indexes an empty list.
    Nothing is yielded for it and the registry is untouched. *)
Theorem sgr_extended_without_selector (E : Curses.env) (p : str)
    (chunks : list str) (fg bg attr : Z) (st : Color.registry) :
  digit_string p -> value p = 38 \/ value p = 48 ->
  resolve_chunks E (sgr [p] :: chunks) fg bg attr st
  = ({| yielded := []; raised := Some IndexError |}, st).
Proof.
  intros Hp Hv.
  assert (Hd : Forall digit_string [p]) by solve_digits.
  rewrite resolve_sgr; [|discriminate | exact (Forall_digit_string_all Hd)].
  rewrite (map_int_digit_strings Hd). cbn [map].
  destruct Hv as [-> | ->]; reflexivity.
Qed.

Lemma sgr_extended_without_selector_witness :
  resolve_chunks Curses.ncurses [sgr [of_string "38"]; of_string "x"]
    (-1) (-1) 0 Color.registry0
  = ({| yielded := []; raised := Some IndexError |}, Color.registry0).
Proof.
  assert (H : digit_string (of_string "38"))
    by (split; [discriminate | reflexivity]).
  apply (@sgr_extended_without_selector Curses.ncurses (of_string "38")
           [of_string "x"] (-1) (-1) 0 Color.registry0 H).
  left. reflexivity.
Defined.

(** X15.  A truecolor token needs exactly three components: with selector
    2 and any other number of parameters behind it (['\x1b[38;2;255;0m'])
    the unpacking in [parse_rgb] raises [ValueError], the generator ends
    and the registry is untouched. *)
Theorem sgr_truecolor_arity (E : Curses.env) (p q : str)
    (ops chunks : list str) (fg bg attr : Z) (st : Color.registry) :
  digit_string p -> digit_string q -> Forall digit_string ops ->
  value p = 38 \/ value p = 48 -> value q = 2 ->
  List.length ops <> 3%nat ->
  resolve_chunks E (sgr (p :: q :: ops) :: chunks) fg bg attr st
  = ({| yielded := []; raised := Some ValueError |}, st).
Proof.
  intros Hp Hq Hops Hv Hq2 Hlen.
  assert (Hd : Forall digit_string (p :: q :: ops)) by solve_digits.
  rewrite resolve_sgr; [|discriminate | exact (Forall_digit_string_all Hd)].
  rewrite (map_int_digit_strings Hd). cbn [map]. rewrite Hq2.
  assert (Hrgb : parse_rgb E (map value ops) st = (Raise ValueError, st)).
  { rewrite <- (length_map value) in Hlen.
    destruct (map value ops) as [|a [|b [|c [|d l]]]]; try reflexivity.
    now elim Hlen. }
  destruct Hv as [-> | ->];
    unfold parse_ansi_code, parse_color, bind; cbn [Z.eqb Pos.eqb];
    now rewrite Hrgb.
Qed.

Lemma sgr_truecolor_arity_witness :
  resolve_chunks Curses.ncurses
    [sgr [of_string "38"; of_string "2"; of_string "255"; of_string "0"]]
    (-1) (-1) 0 Color.registry0
  = ({| yielded := []; raised := Some ValueError |}, Color.registry0).
Proof.
  assert (H38 : digit_string (of_string "38"))
    by (split; [discriminate | reflexivity]).
  assert (H2 : digit_string (of_string "2"))
    by (split; [discriminate | reflexivity]).
  assert (Hops : Forall digit_string [of_string "255"; of_string "0"])
    by solve_digits.
  apply (@sgr_truecolor_arity Curses.ncurses (of_string "38") (of_string "2")
           [of_string "255"; of_string "0"] [] (-1) (-1) 0 Color.registry0
           H38 H2 Hops).
  - left. reflexivity.
  - reflexivity.
  - discriminate.
Defined.

(** X16.  An extended colour with a selector other than 2 and 5 gives the
    default colour: after 38 [fg] becomes -1, after 48 [bg] becomes -1, the
    rest of the state and the registry stay, and the parameters behind the
    selector are not looked at. *)
Theorem sgr_unknown_selector (E : Curses.env) (q : str)
    (ops chunks : list str) (fg bg attr : Z) (st : Color.registry) :
  digit_string q -> Forall digit_string ops ->
  value q <> 2 -> value q <> 5 ->
  resolve_chunks E (sgr (of_string "38" :: q :: ops) :: chunks) fg bg attr st
  = yield (State (-1) bg attr) (resolve_chunks E chunks (-1) bg attr st) /\
  resolve_chunks E (sgr (of_string "48" :: q :: ops) :: chunks) fg bg attr st
  = yield (State fg (-1) attr) (resolve_chunks E chunks fg (-1) attr st).
Proof.
  intros Hq Hops H2 H5.
  assert (H38 : Forall digit_string (of_string "38" :: q :: ops)) by solve_digits.
  assert (H48 : Forall digit_string (of_string "48" :: q :: ops)) by solve_digits.
  split.
  - rewrite resolve_sgr; [|discriminate | exact (Forall_digit_string_all H38)].
    rewrite (map_int_digit_strings H38). cbn [map].
    change (value (of_string "38")) with 38.
    unfold parse_ansi_code, parse_color, bind, ret. cbn [Z.eqb Pos.eqb].
    destruct (Z.eqb_spec (value q) 5); [contradiction|].
    destruct (Z.eqb_spec (value q) 2); [contradiction|].
    reflexivity.
  - rewrite resolve_sgr; [|discriminate | exact (Forall_digit_string_all H48)].
    rewrite (map_int_digit_strings H48). cbn [map].
    change (value (of_string "48")) with 48.
    unfold parse_ansi_code, parse_color, bind, ret. cbn [Z.eqb Pos.eqb].
    destruct (Z.eqb_spec (value q) 5); [contradiction|].
    destruct (Z.eqb_spec (value q) 2); [contradiction|].
    reflexivity.
Qed.

Lemma sgr_unknown_selector_witness :
  resolve_chunks Curses.ncurses
    [sgr [of_string "38"; of_string "3"; of_string "7"]] 4 5 6 Color.registry0
  = yield (State (-1) 5 6)
      (resolve_chunks Curses.ncurses [] (-1) 5 6 Color.registry0).
Proof.
  assert (H3 : digit_string (of_string "3"))
    by (split; [discriminate | reflexivity]).
  assert (Hops : Forall digit_string [of_string "7"]) by solve_digits.
  assert (Hn2 : value (of_string "3") <> 2) by discriminate.
  assert (Hn5 : value (of_string "3") <> 5) by discriminate.
  exact (proj1 (@sgr_unknown_selector Curses.ncurses (of_string "3")
                  [of_string "7"] [] 4 5 6 Color.registry0 H3 Hops Hn2 Hn5)).
Defined.

(** X17.  Truecolor background: for the token ['\x1b[48;2;R;G;Bm'] the
    resolver calls [get_color_id] with [(R, G, B)] and what it returns
    becomes [bg], with [fg] and [attr] as they were; an exception of
    [get_color_id] ends the generator. *)
Theorem truecolor_background_delegates (E : Curses.env)
    (R G B : str) (chunks : list str) (fg bg attr : Z) (st : Color.registry) :
  digit_string R -> digit_string G -> digit_string B ->
  resolve_chunks E (sgr [of_string "48"; of_string "2"; R; G; B] :: chunks)
    fg bg attr st
  = match Color.get_color_id E (value R) (value G) (value B) st with
    | (Ok colid, st') =>
        yield (State fg colid attr) (resolve_chunks E chunks fg colid attr st')
    | (Raise e, st') => ({| yielded := []; raised := Some e |}, st')
    end.
Proof.
  intros HR HG HB.
  assert (Hd : Forall digit_string [of_string "48"; of_string "2"; R; G; B])
    by solve_digits.
  rewrite resolve_sgr; [|discriminate | exact (Forall_digit_string_all Hd)].
  rewrite (map_int_digit_strings Hd). cbn [map].
  change (value (of_string "48")) with 48.
  change (value (of_string "2")) with 2.
  unfold parse_ansi_code, parse_color, parse_rgb, bind, ret, resolved.
  cbn [Z.eqb Pos.eqb].
  destruct (Color.get_color_id E (value R) (value G) (value B) st)
    as [[colid|e] st']; reflexivity.
Qed.

Lemma truecolor_background_delegates_witness :
  resolve_chunks Curses.ncurses
    [sgr [of_string "48"; of_string "2"; of_string "255"; of_string "0";
          of_string "0"]] (-1) (-1) 0 Color.registry0
  = match Color.get_color_id Curses.ncurses (value (of_string "255"))
            (value (of_string "0")) (value (of_string "0")) Color.registry0 with
    | (Ok colid, st') =>
        yield (State (-1) colid 0)
          (resolve_chunks Curses.ncurses [] (-1) colid 0 st')
    | (Raise e, st') => ({| yielded := []; raised := Some e |}, st')
    end.
Proof.
  assert (H255 : digit_string (of_string "255"))
    by (split; [discriminate | reflexivity]).
  assert (H0 : digit_string (of_string "0"))
    by (split; [discriminate | reflexivity]).
  exact (@truecolor_background_delegates Curses.ncurses
           (of_string "255") (of_string "0") (of_string "0")
           [] (-1) (-1) 0 Color.registry0 H255 H0 H0).
Defined.

(** X18.  Text without an escape character passes through: the generator
    yields the string as one text chunk, raises nothing and leaves the
    registry alone. *)
Theorem text_with_fg_bg_attr_plain (E : Curses.env) (s : str) (st : Color.registry) :
  forallb (fun c : char => negb (c =? ESC)%N) s = true ->
  text_with_fg_bg_attr E s st = ({| yielded := [Text s]; raised := None |}, st).
Proof.
  intros H. unfold text_with_fg_bg_attr, split_ansi_from_text.
  rewrite (split_match_free (@no_esc_match_free s H)).
  apply resolve_plain. now apply no_esc_hd.
Qed.

Lemma text_with_fg_bg_attr_plain_witness :
  text_with_fg_bg_attr Curses.ncurses (of_string "hello") Color.registry0
  = ({| yielded := [Text (of_string "hello")]; raised := None |}, Color.registry0).
Proof. apply text_with_fg_bg_attr_plain. reflexivity. Defined.

(** X19.  The generator never yields text that begins with the escape
    character, for any input: a chunk that begins with it is resolved or
    skipped, also when it is literal text of the tokenizer. *)
Theorem text_with_fg_bg_attr_no_escape_text (E : Curses.env) (s : str)
    (st : Color.registry) (x : str) :
  In (Text x) (yielded (fst (text_with_fg_bg_attr E s st))) ->
  hd_error x <> Some ESC.
Proof. unfold text_with_fg_bg_attr. apply yielded_text. Qed.

Lemma text_with_fg_bg_attr_no_escape_text_witness :
  hd_error (of_string "b") <> Some ESC.
Proof.
  apply (@text_with_fg_bg_attr_no_escape_text Curses.ncurses
           (of_string "a" ++ esc "[0m" ++ of_string "b") Color.registry0).
  vm_compute. right. right. left. reflexivity.
Defined.

(** X20.  Text behind an unfinished escape sequence is lost: a string
    that begins with the escape character, holds no complete escape sequence
    and does not end in ['m'] yields nothing at all, although all of it is
    visible text for [char_len]. *)
Theorem text_with_fg_bg_attr_drops_unfinished (E : Curses.env)
    (wide : char -> bool) (s : str) (st : Color.registry) :
  match_free s -> hd_error s = Some ESC -> last s 0%N <> LOWER_M ->
  text_with_fg_bg_attr E s st = ({| yielded := []; raised := None |}, st) /\
  char_len wide s = WideString.len wide s.
Proof.
  intros Hs Hhd Hlast. split.
  - unfold text_with_fg_bg_attr, split_ansi_from_text.
    rewrite (split_match_free Hs). now rewrite resolve_skip.
  - unfold char_len. rewrite sub_empty_texts, (split_match_free Hs).
    cbn [texts concat]. now rewrite app_nil_r.
Qed.

Lemma match_free_unfinished :
  match_free (ESC :: of_string "[12 hello").
Proof.
  intros pre m post E Hm.
  destruct (is_escape_head Hm) as (m' & ->).
  pose proof (match_ansi_complete post Hm) as Hc.
  destruct pre as [|c pre].
  - rewrite app_nil_l in E. rewrite <- E in Hc. discriminate Hc.
  - injection E as _ E.
    assert (Hin : In ESC (of_string "[12 hello")).
    { rewrite E. apply in_or_app. right. now left. }
    vm_compute in Hin. intuition discriminate.
Qed.

Lemma text_with_fg_bg_attr_drops_unfinished_witness :
  text_with_fg_bg_attr Curses.ncurses (ESC :: of_string "[12 hello")
    Color.registry0
  = ({| yielded := []; raised := None |}, Color.registry0) /\
  char_len cjk_wide (ESC :: of_string "[12 hello")
  = WideString.len cjk_wide (ESC :: of_string "[12 hello").
Proof.
  apply text_with_fg_bg_attr_drops_unfinished.
  - exact match_free_unfinished.
  - reflexivity.
  - discriminate.
Defined.

Import MoreColor RegistryFacts PairFacts.

(** X21.  [get_color_id] remembers: when a call returns a number (a colour
    number, or -1 where there is no room), the same call again returns the
    same number and leaves the table, the counter and the palette as the
    first call left them. *)
Theorem get_color_id_memo (E : Curses.env) (r g b c : Z)
    (st : Color.registry) :
  fst (Color.get_color_id E r g b st) = Ok c ->
  Color.get_color_id E r g b (snd (Color.get_color_id E r g b st))
  = (Ok c, snd (Color.get_color_id E r g b st)).
Proof.
  intros H. rewrite get_color_id_again.
  destruct (Color.get_color_id E r g b st) as [res st'].
  cbn [fst snd] in *. now subst res.
Qed.

Lemma get_color_id_memo_witness :
  Color.get_color_id Curses.ncurses 255 0 0
    (snd (Color.get_color_id Curses.ncurses 255 0 0 Color.registry0))
  = (Ok 24, snd (Color.get_color_id Curses.ncurses 255 0 0 Color.registry0)).
Proof.
  assert (H : fst (Color.get_color_id Curses.ncurses 255 0 0 Color.registry0)
              = Ok 24) by (vm_compute; reflexivity).
  exact (@get_color_id_memo Curses.ncurses 255 0 0 24 Color.registry0 H).
Defined.







(** X25.  A colour keeps its number: an entry of the table is still there,
    with the same number, after any call of [get_color_id]. *)
Theorem get_color_id_keeps_entries (E : Curses.env) (r g b : Z)
    (st : Color.registry) (k : Color.rgb) (v : Z) :
  Color.dict_get k (registry_dict st) = Some v ->
  Color.dict_get k (registry_dict (snd (Color.get_color_id E r g b st)))
  = Some v.
Proof.
  intros H. apply get_color_id_stable.
  now rewrite (@registry_dict_current E st k v H).
Qed.

Lemma get_color_id_keeps_entries_witness :
  Color.dict_get (996, 0, 0)
    (registry_dict
       (snd (Color.get_color_id Curses.ncurses 0 255 0
               (snd (Color.get_color_id Curses.ncurses 255 0 0
                       Color.registry0)))))
  = Some 24.
Proof.
  assert (H : Color.dict_get (996, 0, 0)
                (registry_dict
                   (snd (Color.get_color_id Curses.ncurses 255 0 0
                           Color.registry0)))
              = Some 24) by (vm_compute; reflexivity).
  exact (@get_color_id_keeps_entries Curses.ncurses 0 255 0
           (snd (Color.get_color_id Curses.ncurses 255 0 0 Color.registry0))
           (996, 0, 0) 24 H).
Defined.

(** X26.  [get_color] remembers: the same call again returns the same pair
    number, makes no call of [init_pair] and leaves [COLOR_PAIRS] as it
    is. *)
Theorem get_color_memo (ok : Z -> Z -> Z -> bool) (fg bg : Z)
    (st : ColorPairs.state) :
  ColorPairs.get_color ok fg bg (snd (ColorPairs.get_color ok fg bg st))
  = (fst (ColorPairs.get_color ok fg bg st),
     snd (ColorPairs.get_color ok fg bg st)).
Proof.
  pose proof (@get_color_lookup ok fg bg st) as H.
  unfold ColorPairs.get_color at 1. cbv zeta. now rewrite H.
Qed.

(** X27.  [get_color] never returns pair 0, the number the table starts
    with for its key 10: the pair number is at least 1 and at most the
    size of the table before the call. *)
Theorem get_color_pair_number (ok : Z -> Z -> Z -> bool) (fg bg : Z)
    (st : ColorPairs.state) :
  pairs_reachable ok st ->
  1 <= fst (ColorPairs.get_color ok fg bg st)
    <= Z.of_nat (List.length (ColorPairs.COLOR_PAIRS st)).
Proof.
  intros Hreach. pose proof (pairs_inv_reachable Hreach) as Hinv.
  destruct (@get_color_cases ok fg bg st)
    as [(n & Hg & ->) | (Hg & calls & -> & _)]; cbn [fst].
  - apply pairs_get_in in Hg.
    pose proof (@pairs_inv_range st fg bg n Hinv Hg). lia.
  - destruct Hinv as ((tl & ->) & _). cbn [List.length]. lia.
Qed.

Lemma get_color_pair_number_witness :
  1 <= fst (ColorPairs.get_color init_pair_always 1 0 ColorPairs.state0)
    <= Z.of_nat (List.length (ColorPairs.COLOR_PAIRS ColorPairs.state0)).
Proof.
  assert (H : pairs_reachable init_pair_always ColorPairs.state0)
    by apply pr_init.
  exact (@get_color_pair_number init_pair_always 1 0 ColorPairs.state0 H).
Defined.

(** X28.  Two different colour combinations get two different pair
    numbers, whatever calls came before. *)
Theorem get_color_distinct_pairs (ok : Z -> Z -> Z -> bool)
    (fg1 bg1 fg2 bg2 : Z) (st : ColorPairs.state) :
  pairs_reachable ok st -> (fg1, bg1) <> (fg2, bg2) ->
  fst (ColorPairs.get_color ok fg2 bg2
         (snd (ColorPairs.get_color ok fg1 bg1 st)))
  <> fst (ColorPairs.get_color ok fg1 bg1 st).
Proof.
  intros Hreach Hneq Heq.
  set (st1 := snd (ColorPairs.get_color ok fg1 bg1 st)) in *.
  set (st2 := snd (ColorPairs.get_color ok fg2 bg2 st1)).
  assert (Hinv : pairs_inv st2).
  { apply (@pairs_inv_reachable ok). subst st2 st1. now do 2 apply pr_step. }
  pose proof (@get_color_lookup ok fg1 bg1 st) as H1. fold st1 in H1.
  apply (@get_color_stable ok fg2 bg2) in H1. fold st2 in H1.
  pose proof (@get_color_lookup ok fg2 bg2 st1) as H2. fold st2 in H2.
  rewrite Heq in H2.
  apply pairs_get_in in H1. apply pairs_get_in in H2.
  pose proof (@pairs_inv_injective st2 _ _ _ Hinv H1 H2) as Hk.
  injection Hk as -> ->. now elim Hneq.
Qed.

Lemma get_color_distinct_pairs_witness :
  fst (ColorPairs.get_color init_pair_always 2 0
         (snd (ColorPairs.get_color init_pair_always 1 0 ColorPairs.state0)))
  <> fst (ColorPairs.get_color init_pair_always 1 0 ColorPairs.state0).
Proof.
  assert (H1 : pairs_reachable init_pair_always ColorPairs.state0)
    by apply pr_init.
  assert (H2 : (1, 0) <> (2, 0)) by discriminate.
  exact (@get_color_distinct_pairs init_pair_always 1 0 2 0
           ColorPairs.state0 H1 H2).
Defined.

(** X29.  What holds after any number of calls of [get_color]:
    [init_pair] went through at most once for a pair number, and only
    for numbers from 1 up to the size of the table; pair 0 is never
    initialised. *)
Theorem init_pair_once (ok : Z -> Z -> Z -> bool) (st : ColorPairs.state) :
  pairs_reachable ok st ->
  NoDup (init_pair_ids st) /\
  (forall c, In c (init_pair_ids st) ->
     1 <= c < Z.of_nat (List.length (ColorPairs.COLOR_PAIRS st))).
Proof.
  intros Hreach.
  destruct (pairs_inv_reachable Hreach) as (_ & _ & _ & Hnd & Hr).
  now split.
Qed.

Lemma init_pair_once_witness :
  NoDup (init_pair_ids
           (snd (ColorPairs.get_color init_pair_always 1 0 ColorPairs.state0)))
  /\
  (forall c,
     In c (init_pair_ids
             (snd (ColorPairs.get_color init_pair_always 1 0
                     ColorPairs.state0))) ->
     1 <= c < Z.of_nat (List.length
                          (ColorPairs.COLOR_PAIRS
                             (snd (ColorPairs.get_color init_pair_always 1 0
                                     ColorPairs.state0))))).
Proof.
  assert (H : pairs_reachable init_pair_always
                (snd (ColorPairs.get_color init_pair_always 1 0
                        ColorPairs.state0)))
    by (apply pr_step, pr_init).
  exact (@init_pair_once init_pair_always _ H).
Defined.
